(** * Vocabulary processor: a shallow embedding of [vocab_processor.c]

    The program builds a case-insensitive set of words from a source
    text, removes the words found in exclusion texts and prints what is
    left.  The set is a chained hash table with a fixed number of
    buckets; the words come from a character-by-character scanner.

    Conventions of the embedding.
    - A C string is the [list ascii] of the bytes found at its address;
      every function that walks a string stops at the first NUL byte or
      at the end of the list, whichever comes first (the end of the list
      stands for the terminator).
    - [int] and [unsigned long] are [Z]; [unsigned long] is 64 bits wide
      (LP64) and every operation on it is wrapped explicitly.
    - plain [char] is signed (x86-64 ABI), so [*str] read into an [int]
      lies in [-128, 127]; [fgetc] returns the byte as [unsigned char].
    - The program never calls [setlocale], so the ctype functions are
      those of the "C" locale.
    - The heap is an oracle: a list of booleans consumed by successive
      allocation requests ([false]: the request returns NULL); once the
      list is exhausted every request succeeds. *)

From stdpp Require Import base list strings.
From Stdlib Require Import ZArith Ascii Lia.

Local Open Scope Z_scope.

(** ** Configuration (lines 7-9) *)

Definition MIN_WORD_LENGTH : Z := 4.
Definition MAX_WORD_LENGTH : Z := 64.
Definition HASH_TABLE_SIZE : nat := Z.to_nat 16384.

(** ** C integer and character types *)

Definition ULONG_WIDTH : Z := 64.

(** Conversion to [unsigned long]: reduction modulo [2^64]. *)
Definition to_ulong (z : Z) : Z := z mod 2 ^ ULONG_WIDTH.

Definition NUL : ascii := Ascii.zero.

(** The byte read as [unsigned char]. *)
Definition uchar_to_int (ch : ascii) : Z := Z.of_N (N_of_ascii ch).

(** The byte read as (signed) [char] and promoted to [int]. *)
Definition char_to_int (ch : ascii) : Z :=
  let u := uchar_to_int ch in
  if 128 <=? u then u - 256 else u.

(** Storing an [int] into a [char] keeps its low eight bits. *)
Definition int_to_char (z : Z) : ascii := ascii_of_N (Z.to_N (z mod 256)).

(** ** <ctype.h> in the "C" locale *)

Definition isupper (c : Z) : bool := (65 <=? c) && (c <=? 90).
Definition islower (c : Z) : bool := (97 <=? c) && (c <=? 122).
Definition isalpha (c : Z) : bool := isupper c || islower c.
(** Values outside the range of [unsigned char] (a negative [char]
    promoted to [int]) are returned unchanged, as glibc does. *)
Definition tolower (c : Z) : Z := if isupper c then c + 32 else c.

(** ** <string.h> *)

Definition word := list ascii.

Fixpoint strlen (s : word) : Z :=
  match s with
  | [] => 0
  | ch :: s' => if Ascii.eqb ch NUL then 0 else 1 + strlen s'
  end.

(** [strdup] copies up to, and not including, the terminator. *)
Fixpoint c_str (s : word) : word :=
  match s with
  | [] => []
  | ch :: s' => if Ascii.eqb ch NUL then [] else ch :: c_str s'
  end.

(** [strcasecmp]: both strings are walked in step, each byte taken as
    [unsigned char] and lowered; the first difference is returned, and
    [0] when both strings end together. *)
Fixpoint strcasecmp (s1 s2 : word) : Z :=
  match s1 with
  | [] => 0 - tolower (uchar_to_int (hd NUL s2))
  | ch1 :: s1' =>
      let c1 := tolower (uchar_to_int ch1) in
      let c2 := tolower (uchar_to_int (hd NUL s2)) in
      if c1 =? c2
      then if c1 =? 0 then 0 else strcasecmp s1' (tl s2)
      else c1 - c2
  end.

(** ** Hash function (lines 39-47) *)

Fixpoint hash_string_loop (str : word) (hash : Z) : Z :=
  match str with
  | [] => hash
  | ch :: str' =>
      let c := char_to_int ch in
      if c =? 0 then hash
      else hash_string_loop str'
             (to_ulong (to_ulong (to_ulong (Z.shiftl hash 5) + hash)
                        + to_ulong (tolower c)))
  end.

Definition hash_string (str : word) : Z := hash_string_loop str 5381.

(** ** The environment: heap oracle, files and the two output streams *)

Record World := mkWorld {
  heap_oracle : list bool;
  files : list (word * list ascii);
  stdout : list ascii;
  stderr : list ascii
}.

Definition text (s : string) : list ascii := String.list_ascii_of_string s.

Definition newline : ascii := ascii_of_nat 10.

(** One allocation request ([malloc], [calloc], the one inside
    [strdup]): [true] when it returns a non-NULL pointer. *)
Definition malloc (w : World) : bool * World :=
  match heap_oracle w with
  | [] => (true, w)
  | ok :: rest => (ok, mkWorld rest (files w) (stdout w) (stderr w))
  end.

Definition strdup (s : word) (w : World) : option word * World :=
  let '(ok, w') := malloc w in
  (if ok then Some (c_str s) else None, w').

Definition printf (s : list ascii) (w : World) : World :=
  mkWorld (heap_oracle w) (files w) (stdout w ++ s) (stderr w).

Definition fprintf_stderr (s : list ascii) (w : World) : World :=
  mkWorld (heap_oracle w) (files w) (stdout w) (stderr w ++ s).

(** Both failing requests leave [errno] at [ENOMEM]. *)
Definition strerror_ENOMEM : list ascii := text "Cannot allocate memory".

Definition perror (msg : list ascii) (w : World) : World :=
  fprintf_stderr (msg ++ text ": " ++ strerror_ENOMEM ++ [newline]) w.

Fixpoint fopen_lookup (filename : word) (fs : list (word * list ascii))
  : option (list ascii) :=
  match fs with
  | [] => None
  | (name, contents) :: fs' =>
      if decide (name = c_str filename) then Some contents
      else fopen_lookup filename fs'
  end.

Definition fopen (filename : word) (w : World) : option (list ascii) :=
  fopen_lookup filename (files w).

(** ** Data structures (lines 14-29) *)

(** A bucket is its chain of nodes, head first; a node is its word. *)
Record HashTable := mkHashTable {
  buckets : list (list word);
  size : nat
}.

Inductive ProcessMode := MODE_ADD | MODE_REMOVE.

(** ** Hash table functions *)

(** [create_hash_table] (lines 56-67). *)
Definition create_hash_table (size : nat) (w : World)
  : option HashTable * World :=
  let '(table, w1) := malloc w in
  if negb table then (None, w1)
  else
    let '(bkts, w2) := malloc w1 in
    if negb bkts then (None, w2)
    else (Some (mkHashTable (replicate size []) size), w2).

Definition bucket_index (table : HashTable) (wd : word) : nat :=
  Z.to_nat (hash_string wd mod Z.of_nat (size table)).

(** The scan of lines 79-85: is there a node whose word [strcasecmp]
    reports equal to [wd]? *)
Fixpoint chain_find (current : list word) (wd : word) : bool :=
  match current with
  | [] => false
  | node :: next =>
      if strcasecmp node wd =? 0 then true else chain_find next wd
  end.

(** [insert_word] (lines 74-102). *)
Definition insert_word (table : HashTable) (wd : word) (w : World)
  : HashTable * World :=
  let index := bucket_index table wd in
  if chain_find (buckets table !!! index) wd then (table, w)
  else
    let '(new_node, w1) := malloc w in
    if negb new_node
    then (table, perror (text "Failed to allocate memory for new node") w1)
    else
      let '(copy, w2) := strdup wd w1 in
      match copy with
      | None => (table, perror (text "Failed to duplicate word string") w2)
      | Some new_word =>
          (mkHashTable
             (<[index := new_word :: buckets table !!! index]> (buckets table))
             (size table), w2)
      end.

(** The chain after the loop of lines 116-131: the first node whose word
    matches is unlinked, the others stay in place. *)
Fixpoint chain_unlink (current : list word) (wd : word) : list word :=
  match current with
  | [] => []
  | node :: next =>
      if strcasecmp node wd =? 0 then next
      else node :: chain_unlink next wd
  end.

(** [remove_word] (lines 109-132). *)
Definition remove_word (table : HashTable) (wd : word) : HashTable :=
  let index := bucket_index table wd in
  mkHashTable
    (<[index := chain_unlink (buckets table !!! index) wd]> (buckets table))
    (size table).

(** [print_table] (lines 138-146). *)
Fixpoint print_chain (current : list word) (w : World) : World :=
  match current with
  | [] => w
  | node :: next => print_chain next (printf (c_str node ++ [newline]) w)
  end.

Definition print_table (table : HashTable) (w : World) : World :=
  fold_left (fun acc i => print_chain (buckets table !!! i) acc)
            (seq 0 (size table)) w.

(** The words [print_table] visits, in the order it visits them. *)
Definition enumerate (table : HashTable) : list word :=
  flat_map (fun i => buckets table !!! i) (seq 0 (size table)).

(** ** File processing (lines 175-222) *)

(** The call of lines 198-202 and 213-217. *)
Definition dispatch (mode : ProcessMode) (wd : word)
  (st : HashTable * World) : HashTable * World :=
  match mode with
  | MODE_ADD => insert_word (fst st) wd (snd st)
  | MODE_REMOVE => (remove_word (fst st) wd, snd st)
  end.

Section Scanner.
(** The scanning loop uses the table and the mode only through the
    call that receives a finished word; [emit] stands for that call. *)
Context {S : Type} (emit : word -> S -> S).

(** Lines 196-203 and 211-218: [word_buffer] is terminated and handed
    over when it is long enough. *)
Definition flush_word (word_buffer : word) (st : S) : S :=
  if MIN_WORD_LENGTH <=? strlen word_buffer then emit word_buffer st
  else st.

(** Lines 187-219.  [word_buffer] holds the bytes written so far, so
    [char_index] is its length. *)
Fixpoint scan (input : list ascii) (word_buffer : word) (st : S) : S :=
  let char_index := Z.of_nat (length word_buffer) in
  match input with
  | [] =>
      if 0 <? char_index then flush_word word_buffer st else st
  | ch :: rest =>
      let c := uchar_to_int ch in
      if isalpha c then
        if char_index <? MAX_WORD_LENGTH - 1
        then scan rest (word_buffer ++ [int_to_char (tolower c)]) st
        else scan rest word_buffer st
      else
        if 0 <? char_index
        then scan rest [] (flush_word word_buffer st)
        else scan rest word_buffer st
  end.
End Scanner.

Definition process_file (filename : word) (table : HashTable)
  (mode : ProcessMode) (w : World) : HashTable * World :=
  match fopen filename w with
  | None =>
      (table,
       fprintf_stderr (text "Error: Could not open file '" ++ c_str filename
                       ++ text "'." ++ [newline]) w)
  | Some contents => scan (dispatch mode) contents [] (table, w)
  end.

(** ** [main] (lines 226-258); [argv] includes the program name

    The final [free_table] (lines 152-165, called at line 255) releases
    the memory and leaves both streams untouched; it has no counterpart
    here. *)

Definition exclusion_pass (st : HashTable * World) (filename : word)
  : HashTable * World :=
  process_file filename (fst st) MODE_REMOVE
    (printf (text "Processing exclusion file: " ++ c_str filename
             ++ [newline]) (snd st)).

Definition main (argv : list word) (w : World) : Z * World :=
  if Z.of_nat (length argv) <? 3 then
    (1, fprintf_stderr
          (text "Usage: " ++ c_str (argv !!! 0%nat)
           ++ text " <source_file> <exclusion_file1> [exclusion_file2] ..."
           ++ [newline]) w)
  else
    let '(vocabulary, w1) := create_hash_table HASH_TABLE_SIZE w in
    match vocabulary with
    | None =>
        (1, fprintf_stderr
              (text "Fatal: Could not create vocabulary hash table."
               ++ [newline]) w1)
    | Some vocabulary =>
        let source := argv !!! 1%nat in
        let w2 := printf (text "Processing source file: " ++ c_str source
                          ++ [newline]) w1 in
        let st3 := process_file source vocabulary MODE_ADD w2 in
        let st4 := fold_left exclusion_pass (drop 2 argv) st3 in
        let w5 := printf ([newline] ++ text "--- Final Vocabulary ---"
                          ++ [newline]) (snd st4) in
        (0, print_table (fst st4) w5)
    end.

(** * Specification-side notions *)

(** ** Sequences of set operations *)

(** An operation is a mode and a word, as [process_file] issues them. *)
Definition run (ops : list (ProcessMode * word)) (st : HashTable * World)
  : HashTable * World :=
  fold_left (fun st op => dispatch (fst op) (snd op) st) ops st.

(** ** Case-insensitive equality *)

(** The case-folded content of a string. *)
Definition fold_case (s : word) : list Z :=
  map (fun ch => tolower (uchar_to_int ch)) (c_str s).

(** ** The set invariant of the data model *)

Definition table_shape (t : HashTable) : Prop :=
  (0 < size t)%nat /\ length (buckets t) = size t.

(** [x] is the word of node number [k] of the chain of bucket [i]. *)
Definition entry_at (t : HashTable) (i k : nat) (x : word) : Prop :=
  exists chain, buckets t !! i = Some chain /\ chain !! k = Some x.

Definition no_case_duplicates (t : HashTable) : Prop :=
  forall i k x j l y,
    entry_at t i k x -> entry_at t j l y ->
    strcasecmp x y = 0 -> i = j /\ k = l.

Definition in_home_bucket (t : HashTable) : Prop :=
  forall i k x, entry_at t i k x -> i = bucket_index t x.

Definition once_per_chain (t : HashTable) : Prop :=
  forall i chain, buckets t !! i = Some chain -> NoDup chain.

(** The invariant in the form the operations maintain it, chain by
    chain: every word of a chain hashes to the index of its bucket, and
    no two words of a chain have the same case-folded content. *)
Definition chain_invariant (t : HashTable) (i : nat) (chain : list word)
  : Prop :=
  Forall (fun x => bucket_index t x = i) chain /\
  NoDup (map fold_case chain).

Definition set_invariant (t : HashTable) : Prop :=
  table_shape t /\
  forall i chain, buckets t !! i = Some chain -> chain_invariant t i chain.

(** ** Tokens as the specification describes them *)

Definition is_letter (ch : ascii) : bool :=
  (Ascii.leb "A" ch && Ascii.leb ch "Z")
  || (Ascii.leb "a" ch && Ascii.leb ch "z").

Definition lower (ch : ascii) : ascii :=
  if Ascii.leb "A" ch && Ascii.leb ch "Z"
  then ascii_of_nat (nat_of_ascii ch + 32)
  else ch.

(** The fields between delimiters, empty ones included. *)
Fixpoint fields (s : list ascii) : list (list ascii) :=
  match s with
  | [] => [[]]
  | ch :: rest =>
      if is_letter ch then
        match fields rest with
        | f :: fs => (ch :: f) :: fs
        | [] => [[ch]]
        end
      else [] :: fields rest
  end.

Definition nonempty (r : list ascii) : bool :=
  match r with [] => false | _ => true end.

(** The maximal runs of letters, in order of occurrence. *)
Definition alpha_runs (s : list ascii) : list (list ascii) :=
  List.filter nonempty (fields s).

Definition max_token_length : nat := Z.to_nat (MAX_WORD_LENGTH - 1).

Definition normalize (r : list ascii) : word :=
  take max_token_length (map lower r).

Definition long_enough (tok : word) : bool :=
  MIN_WORD_LENGTH <=? Z.of_nat (length tok).

Definition tokens (s : list ascii) : list word :=
  List.filter long_enough (map normalize (alpha_runs s)).

(** Handing a list of tokens to a sink, first token first. *)
Definition emit_all {S : Type} (emit : word -> S -> S)
  (toks : list word) (st : S) : S :=
  fold_left (fun acc tok => emit tok acc) toks st.

(** ** Insertion order *)

Definition home (n : nat) (x : word) : nat :=
  Z.to_nat (hash_string x mod Z.of_nat n).

Definition matches (wd x : word) : bool := strcasecmp x wd =? 0.

(** The next two allocation requests succeed. *)
Definition allocation_succeeds (w : World) : bool :=
  forallb id (take 2 (heap_oracle w)).

(** The live words in the order of the inserts that added them: an
    insert of an absent word whose allocations succeed adds it at the
    end, a remove deletes the word it names. *)
Definition chronicle_step (op : ProcessMode * word) (w : World)
  (c : list word) : list word :=
  match fst op with
  | MODE_ADD =>
      if existsb (matches (snd op)) c then c
      else if allocation_succeeds w then c ++ [c_str (snd op)] else c
  | MODE_REMOVE => List.filter (fun x => negb (matches (snd op) x)) c
  end.

Fixpoint chronicle (ops : list (ProcessMode * word))
  (st : HashTable * World) (c : list word) : list word :=
  match ops with
  | [] => c
  | op :: ops' =>
      chronicle ops' (dispatch (fst op) (snd op) st)
                (chronicle_step op (snd st) c)
  end.

(** The words of a chronicle whose home is bucket [i]. *)
Definition of_bucket (n i : nat) (c : list word) : list word :=
  List.filter (fun x => Nat.eqb (home n x) i) c.

(** ** Inserts given up for lack of memory *)

(** The insert looks for memory (the word is not in its chain) and one
    of its two requests is refused. *)
Definition insert_abandoned (t : HashTable) (wd : word) (w : World) : bool :=
  negb (chain_find (buckets t !!! bucket_index t wd) wd)
  && negb (allocation_succeeds w).

(** A table of [n] buckets agrees with a chronicle when each chain is
    the chronicle's words of that bucket, latest first. *)
Definition chronicled (n : nat) (t : HashTable) (c : list word) : Prop :=
  size t = n /\
  length (buckets t) = n /\
  NoDup (map fold_case c) /\
  forall i, (i < n)%nat -> buckets t !!! i = rev (of_bucket n i c).

(** A strictly increasing list of bucket indices, all at least [lo]. *)
Fixpoint ascending (lo : nat) (indices : list nat) : bool :=
  match indices with
  | [] => true
  | j :: rest => (lo <=? j)%nat && ascending (S j) rest
  end.

(** What [print_table] writes for one word. *)
Definition line (x : word) : list ascii := c_str x ++ [newline].

(** ** Notions for the further properties *)

(** A word made of lowercase ASCII letters only. *)
Definition lowercase_word (x : word) : Prop :=
  Forall (fun ch => islower (uchar_to_int ch) = true) x.

(** The tokens of a file, none when the file cannot be opened. *)
Definition file_tokens (w : World) (filename : word) : list word :=
  match fopen filename w with
  | Some contents => tokens contents
  | None => []
  end.

(** The progress line [main] prints before an exclusion file. *)
Definition exclusion_progress (filename : word) : list ascii :=
  text "Processing exclusion file: " ++ c_str filename ++ [newline].

(** * Properties *)

(** ** Characters *)

Lemma uchar_to_int_range (ch : ascii) : 0 <= uchar_to_int ch < 256.
Proof.
  unfold uchar_to_int. pose proof (N_ascii_bounded ch). lia.
Qed.

Lemma uchar_to_int_inj (a b : ascii) :
  uchar_to_int a = uchar_to_int b -> a = b.
Proof.
  unfold uchar_to_int. intros H.
  rewrite <- (ascii_N_embedding a), <- (ascii_N_embedding b).
  f_equal. lia.
Qed.

Lemma uchar_to_int_NUL (ch : ascii) : uchar_to_int ch = 0 <-> ch = NUL.
Proof.
  split.
  - intros H. apply uchar_to_int_inj. rewrite H. reflexivity.
  - intros ->. reflexivity.
Qed.

Lemma eqb_NUL_uchar (ch : ascii) :
  Ascii.eqb ch NUL = (uchar_to_int ch =? 0).
Proof.
  destruct (Ascii.eqb_spec ch NUL) as [->|Hne]; [reflexivity|].
  symmetry. apply Z.eqb_neq. intros H. apply Hne.
  by apply uchar_to_int_NUL.
Qed.

Lemma char_to_int_zero (ch : ascii) :
  (char_to_int ch =? 0) = (uchar_to_int ch =? 0).
Proof.
  unfold char_to_int. pose proof (uchar_to_int_range ch).
  destruct (128 <=? uchar_to_int ch) eqn:E; [|reflexivity].
  apply Z.leb_le in E.
  transitivity false; [|symmetry]; apply Z.eqb_neq; lia.
Qed.

Lemma tolower_zero (c : Z) : tolower c = 0 <-> c = 0.
Proof.
  unfold tolower, isupper.
  destruct (65 <=? c) eqn:E1; destruct (c <=? 90) eqn:E2; simpl; lia.
Qed.

(** Two bytes that [strcasecmp] identifies contribute the same amount to
    the hash, although the hash reads them as signed [char]. *)
Lemma tolower_uchar_char (a b : ascii) :
  tolower (uchar_to_int a) = tolower (uchar_to_int b) ->
  tolower (char_to_int a) = tolower (char_to_int b).
Proof.
  pose proof (uchar_to_int_range a). pose proof (uchar_to_int_range b).
  unfold tolower, isupper, char_to_int.
  destruct (128 <=? uchar_to_int a) eqn:Ea;
    destruct (128 <=? uchar_to_int b) eqn:Eb;
    repeat match goal with
           | |- context [?x <=? ?y] => destruct (Z.leb_spec x y); simpl
           end; lia.
Qed.

(** ** Strings *)

Lemma strcasecmp_nil_l (s : word) :
  strcasecmp [] s = 0 <-> c_str s = [].
Proof.
  destruct s as [|ch s]; simpl; [done|].
  rewrite eqb_NUL_uchar.
  destruct (Z.eqb_spec (uchar_to_int ch) 0) as [E|E].
  - rewrite E. done.
  - split; [|done]. intros H. exfalso. apply E, tolower_zero. lia.
Qed.

(** A string and its copy are indistinguishable to the hash. *)
Lemma hash_string_loop_c_str (s : word) (h : Z) :
  hash_string_loop (c_str s) h = hash_string_loop s h.
Proof.
  revert h. induction s as [|ch s IH]; intros h; simpl; [done|].
  rewrite eqb_NUL_uchar, char_to_int_zero.
  destruct (uchar_to_int ch =? 0) eqn:E; simpl; [done|].
  rewrite char_to_int_zero, E. apply IH.
Qed.

Lemma hash_string_loop_strcasecmp (a b : word) (h : Z) :
  strcasecmp a b = 0 -> hash_string_loop a h = hash_string_loop b h.
Proof.
  revert b h. induction a as [|ch a IH]; intros b h H.
  - apply strcasecmp_nil_l in H.
    rewrite <- (hash_string_loop_c_str b), H. done.
  - simpl in H.
    destruct (Z.eqb_spec (tolower (uchar_to_int ch))
                (tolower (uchar_to_int (hd NUL b)))) as [E|E]; [|lia].
    simpl. rewrite char_to_int_zero.
    destruct (Z.eqb_spec (tolower (uchar_to_int ch)) 0) as [E0|E0].
    + apply (proj1 (tolower_zero _)) in E0. rewrite E0. simpl.
      rewrite E0 in E. symmetry in E. apply (proj1 (tolower_zero _)) in E.
      destruct b as [|ch' b]; simpl; [done|].
      simpl in E. rewrite char_to_int_zero, E. done.
    + assert (uchar_to_int ch <> 0) as Hch.
      { intros Hz. apply E0. by apply tolower_zero. }
      apply Z.eqb_neq in Hch. rewrite Hch.
      destruct b as [|ch' b]; simpl in *.
      { exfalso. apply E0. rewrite E. done. }
      assert (uchar_to_int ch' <> 0) as Hch'.
      { intros Hz. apply E0. rewrite E. by apply tolower_zero. }
      apply Z.eqb_neq in Hch'. rewrite char_to_int_zero, Hch'.
      rewrite (tolower_uchar_char _ _ E). by apply IH.
Qed.

(** C4.  Two strings that [strcasecmp] reports equal have the same
    [hash_string] value, hence the same bucket index in every table. *)
Theorem hash_string_case_insensitive (a b : word) :
  strcasecmp a b = 0 ->
  hash_string a = hash_string b /\
  forall table, bucket_index table a = bucket_index table b.
Proof.
  intros H.
  assert (hash_string a = hash_string b) as E
      by (by apply hash_string_loop_strcasecmp).
  split; [done|]. intros table. unfold bucket_index. by rewrite E.
Qed.

Lemma hash_string_case_insensitive_witness :
  strcasecmp (text "Apple") (text "aPPLE") = 0 /\
  hash_string (text "Apple") = hash_string (text "aPPLE").
Proof.
  split; [reflexivity|].
  apply (hash_string_case_insensitive (text "Apple") (text "aPPLE")).
  reflexivity.
Defined.

(** ** The scanner against the token rule *)

Lemma isalpha_is_letter (ch : ascii) :
  isalpha (uchar_to_int ch) = is_letter ch.
Proof. destruct ch as [[] [] [] [] [] [] [] []]; reflexivity. Qed.

Lemma tolower_lower (ch : ascii) :
  int_to_char (tolower (uchar_to_int ch)) = lower ch.
Proof. destruct ch as [[] [] [] [] [] [] [] []]; reflexivity. Qed.

Lemma lower_letter_not_NUL (ch : ascii) :
  is_letter ch = true -> lower ch <> NUL.
Proof. destruct ch as [[] [] [] [] [] [] [] []]; done. Qed.

Lemma strlen_no_NUL (s : word) :
  Forall (fun ch => ch <> NUL) s -> strlen s = Z.of_nat (length s).
Proof.
  induction 1 as [|ch s Hch _ IH]; [done|].
  simpl strlen. destruct (Ascii.eqb_spec ch NUL); [done|].
  rewrite IH. simpl length. lia.
Qed.

Lemma normalize_no_NUL (r : list ascii) :
  Forall (fun ch => is_letter ch = true) r ->
  Forall (fun ch => ch <> NUL) (normalize r).
Proof.
  intros H. unfold normalize. apply Forall_take, Forall_fmap.
  eapply Forall_impl; [exact H|]. intros ch Hch. by apply lower_letter_not_NUL.
Qed.

Lemma fields_not_nil (s : list ascii) : fields s <> [].
Proof.
  induction s as [|ch s IH]; simpl; [done|].
  destruct (is_letter ch); [|done]. by destruct (fields s).
Qed.

(** A run followed by a delimiter is a field of its own. *)
Lemma fields_app_letters (r s : list ascii) :
  Forall (fun ch => is_letter ch = true) r ->
  fields (r ++ s) =
    match fields s with f :: fs => (r ++ f) :: fs | [] => [] end.
Proof.
  induction 1 as [|ch r Hch _ IH]; simpl.
  - by destruct (fields s).
  - rewrite Hch, IH. destruct (fields s) eqn:E; [|done].
    by apply fields_not_nil in E.
Qed.

Lemma alpha_runs_delimiter (r : list ascii) (d : ascii) (s : list ascii) :
  Forall (fun ch => is_letter ch = true) r ->
  is_letter d = false ->
  alpha_runs (r ++ d :: s) =
    (if nonempty r then [r] else []) ++ alpha_runs s.
Proof.
  intros Hr Hd. unfold alpha_runs.
  rewrite fields_app_letters by done. simpl. rewrite Hd.
  rewrite app_nil_r. simpl. by destruct (nonempty r).
Qed.

Lemma alpha_runs_letters (r : list ascii) :
  Forall (fun ch => is_letter ch = true) r ->
  alpha_runs r = if nonempty r then [r] else [].
Proof.
  intros Hr. unfold alpha_runs.
  rewrite <- (app_nil_r r) at 1. rewrite fields_app_letters by done.
  simpl. rewrite app_nil_r. by destruct (nonempty r).
Qed.

Lemma normalize_snoc (r : list ascii) (ch : ascii) :
  normalize (r ++ [ch]) =
    if Z.of_nat (length (normalize r)) <? MAX_WORD_LENGTH - 1
    then normalize r ++ [lower ch]
    else normalize r.
Proof.
  unfold normalize. rewrite map_app, length_take, length_map. simpl map.
  assert (MAX_WORD_LENGTH - 1 = Z.of_nat max_token_length) as -> by done.
  destruct (Nat.lt_ge_cases (length r) max_token_length) as [Hlt|Hge].
  - rewrite (proj2 (Z.ltb_lt _ _)) by lia.
    rewrite (take_ge (map lower r)) by (rewrite length_map; lia).
    rewrite take_ge; [done|]. rewrite length_app, length_map. simpl. lia.
  - rewrite (proj2 (Z.ltb_ge _ _)) by lia.
    rewrite take_app_le by (rewrite length_map; lia). done.
Qed.

Lemma normalize_nonempty (r : list ascii) :
  (0 <? Z.of_nat (length (normalize r))) = nonempty r.
Proof.
  destruct r as [|ch r]; [done|]. unfold normalize. simpl.
  apply Z.ltb_lt. lia.
Qed.

Section ScannerCorrect.
Context {S : Type} (emit : word -> S -> S).

Lemma flush_word_tokens (r : list ascii) (st : S) :
  Forall (fun ch => is_letter ch = true) r ->
  flush_word emit (normalize r) st =
    emit_all emit (List.filter long_enough [normalize r]) st.
Proof.
  intros Hr. unfold flush_word, long_enough. simpl.
  rewrite strlen_no_NUL by (by apply normalize_no_NUL).
  by destruct (MIN_WORD_LENGTH <=? _).
Qed.

(** The loop invariant: the buffer is the normal form of the letters
    read since the last delimiter. *)
Lemma scan_pending (input pending : list ascii) (st : S) :
  Forall (fun ch => is_letter ch = true) pending ->
  scan emit input (normalize pending) st =
    emit_all emit (tokens (pending ++ input)) st.
Proof.
  revert pending st.
  induction input as [|ch rest IH]; intros pending st Hp.
  - rewrite app_nil_r. unfold tokens.
    rewrite alpha_runs_letters by done. simpl scan.
    rewrite normalize_nonempty.
    destruct (nonempty pending); [|done].
    by apply flush_word_tokens.
  - simpl scan. rewrite isalpha_is_letter.
    destruct (is_letter ch) eqn:Hch.
    + rewrite tolower_lower.
      replace (pending ++ ch :: rest) with ((pending ++ [ch]) ++ rest)
        by (by rewrite <- app_assoc).
      rewrite <- IH by (apply Forall_app; split; [done|by constructor]).
      rewrite normalize_snoc.
      by destruct (Z.of_nat (length (normalize pending)) <? _).
    + unfold tokens. rewrite alpha_runs_delimiter by done.
      rewrite normalize_nonempty.
      destruct (nonempty pending) eqn:Hne.
      * change (normalize []) with (@nil ascii) in IH.
        rewrite (IH [] _ (Forall_nil_2 _)). simpl app.
        rewrite flush_word_tokens by done.
        unfold tokens, emit_all. simpl.
        by destruct (long_enough (normalize pending)).
      * destruct pending; [|done]. simpl app.
        change (@nil ascii) with (normalize []) at 1.
        by rewrite (IH [] _ (Forall_nil_2 _)).
Qed.
End ScannerCorrect.

Lemma scan_tokens {S : Type} (emit : word -> S -> S)
  (input : list ascii) (st : S) :
  scan emit input [] st = emit_all emit (tokens input) st.
Proof. exact (scan_pending emit input [] st (Forall_nil_2 _)). Qed.

Lemma emit_all_dispatch (mode : ProcessMode) (toks : list word)
  (st : HashTable * World) :
  emit_all (dispatch mode) toks st = run (map (pair mode) toks) st.
Proof.
  unfold emit_all, run. revert st.
  induction toks as [|tok toks IH]; intros st; simpl; [done|]. apply IH.
Qed.

Lemma process_file_run (filename : word) (table : HashTable)
  (mode : ProcessMode) (w : World) (contents : list ascii) :
  fopen filename w = Some contents ->
  process_file filename table mode w =
    run (map (pair mode) (tokens contents)) (table, w).
Proof.
  intros Hopen. unfold process_file.
  by rewrite Hopen, scan_tokens, emit_all_dispatch.
Qed.

(** C3.  Whatever receives the words, the scanner hands over exactly the
    tokens of the rule, in order: the maximal runs of letters, lowered,
    cut at 63 characters and kept when at least 4 characters long.  In
    particular the words it sends are [tokens input] itself, and
    [process_file] applies insert or remove to each of them in turn. *)
Theorem scan_emits_tokens :
  (forall (S : Type) (emit : word -> S -> S) (input : list ascii) (st : S),
      scan emit input [] st = emit_all emit (tokens input) st) /\
  (forall input : list ascii,
      scan (fun tok sent => sent ++ [tok]) input [] [] = tokens input) /\
  (forall filename table mode w contents,
      fopen filename w = Some contents ->
      process_file filename table mode w =
        run (map (pair mode) (tokens contents)) (table, w)).
Proof.
  split; [intros S emit input st; apply scan_tokens|]. split.
  - intros input. rewrite scan_tokens. unfold emit_all.
    assert (forall (toks acc : list word),
               fold_left (fun acc tok => acc ++ [tok]) toks acc = acc ++ toks)
      as Hfold.
    { induction toks as [|tok toks IH]; intros acc; simpl.
      - by rewrite app_nil_r.
      - rewrite IH, <- app_assoc. done. }
    apply Hfold.
  - intros filename table mode w contents. apply process_file_run.
Qed.

Lemma scan_emits_tokens_witness :
  let w := mkWorld [] [(text "in.txt", text "The quick brown Fox")] [] [] in
  let t := mkHashTable (replicate 4 []) 4 in
  fopen (text "in.txt") w = Some (text "The quick brown Fox") /\
  process_file (text "in.txt") t MODE_ADD w =
    run [(MODE_ADD, text "quick"); (MODE_ADD, text "brown")] (t, w).
Proof.
  intros w t. split; [reflexivity|].
  destruct scan_emits_tokens as (_ & _ & H).
  apply (H (text "in.txt") t MODE_ADD w (text "The quick brown Fox")).
  reflexivity.
Defined.

Example tokens_length_filter :
  tokens (text "a an the cat") = [] /\
  tokens (text "hello world") = [text "hello"; text "world"].
Proof. split; reflexivity. Qed.

(** ** Case-insensitive comparison *)

Lemma fold_case_cons (ch : ascii) (s : word) :
  fold_case (ch :: s) =
    if uchar_to_int ch =? 0 then []
    else tolower (uchar_to_int ch) :: fold_case s.
Proof.
  unfold fold_case. simpl. rewrite eqb_NUL_uchar.
  by destruct (uchar_to_int ch =? 0).
Qed.

Lemma fold_case_nil_iff (s : word) : fold_case s = [] <-> c_str s = [].
Proof.
  unfold fold_case. split; [apply map_eq_nil|by intros ->].
Qed.

Lemma fold_case_c_str (s : word) : fold_case (c_str s) = fold_case s.
Proof.
  induction s as [|ch s IH]; [done|].
  simpl c_str. rewrite eqb_NUL_uchar.
  destruct (uchar_to_int ch =? 0) eqn:E.
  - by rewrite fold_case_cons, E.
  - by rewrite !fold_case_cons, E, IH.
Qed.

(** [strcasecmp] answers [0] exactly on strings with the same
    case-folded content. *)
Lemma strcasecmp_zero_iff (a b : word) :
  strcasecmp a b = 0 <-> fold_case a = fold_case b.
Proof.
  revert b. induction a as [|ch a IH]; intros b.
  - rewrite strcasecmp_nil_l, <- fold_case_nil_iff.
    change (fold_case []) with (@nil Z). split; congruence.
  - rewrite fold_case_cons. simpl strcasecmp.
    pose proof (tolower_zero (uchar_to_int ch)) as Hz.
    destruct b as [|ch' b]; simpl hd; simpl tl.
    + change (tolower (uchar_to_int NUL)) with 0.
      change (fold_case []) with (@nil Z).
      destruct (Z.eqb_spec (tolower (uchar_to_int ch)) 0) as [E|E].
      * apply Hz in E. rewrite E. done.
      * destruct (Z.eqb_spec (uchar_to_int ch) 0) as [E'|E'];
          [by apply Hz in E'|].
        split; [lia|done].
    + rewrite fold_case_cons.
      pose proof (tolower_zero (uchar_to_int ch')) as Hz'.
      destruct (Z.eqb_spec (tolower (uchar_to_int ch))
                  (tolower (uchar_to_int ch'))) as [E|E].
      * destruct (Z.eqb_spec (tolower (uchar_to_int ch)) 0) as [E0|E0].
        -- assert (uchar_to_int ch = 0) as -> by (by apply Hz).
           assert (uchar_to_int ch' = 0) as -> by (apply Hz'; lia).
           done.
        -- destruct (Z.eqb_spec (uchar_to_int ch) 0) as [E1|E1];
             [by apply Hz in E1|].
           destruct (Z.eqb_spec (uchar_to_int ch') 0) as [E2|E2];
             [apply Hz' in E2; lia|].
           rewrite IH, E. split; [by intros ->|by intros [= ->]].
      * split; [lia|]. intros H. exfalso.
        destruct (Z.eqb_spec (uchar_to_int ch) 0) as [E1|E1];
          destruct (Z.eqb_spec (uchar_to_int ch') 0) as [E2|E2];
          try done.
        -- apply E. rewrite E1, E2. done.
        -- injection H as H _. done.
Qed.

Lemma matches_true (wd x : word) :
  matches wd x = true <-> fold_case x = fold_case wd.
Proof. unfold matches. rewrite Z.eqb_eq. apply strcasecmp_zero_iff. Qed.

Lemma matches_false (wd x : word) :
  matches wd x = false <-> fold_case x <> fold_case wd.
Proof.
  rewrite <- matches_true. destruct (matches wd x); split; congruence.
Qed.

Lemma matches_congruence (wd wd' x : word) :
  strcasecmp wd wd' = 0 -> matches wd x = matches wd' x.
Proof.
  intros H. apply strcasecmp_zero_iff in H.
  destruct (matches wd' x) eqn:E.
  - apply matches_true. apply matches_true in E. congruence.
  - apply matches_false. apply matches_false in E. congruence.
Qed.

Lemma home_fold_case (n : nat) (a b : word) :
  fold_case a = fold_case b -> home n a = home n b.
Proof.
  intros H. apply strcasecmp_zero_iff in H. unfold home, hash_string.
  by rewrite (hash_string_loop_strcasecmp a b).
Qed.

Lemma home_lt (n : nat) (x : word) : (0 < n)%nat -> (home n x < n)%nat.
Proof.
  intros Hn. unfold home.
  pose proof (Z.mod_pos_bound (hash_string x) (Z.of_nat n)). lia.
Qed.

(** ** Chains *)

Lemma chain_find_existsb (chain : list word) (wd : word) :
  chain_find chain wd = existsb (matches wd) chain.
Proof.
  induction chain as [|node next IH]; [done|].
  simpl. fold (matches wd node). rewrite IH.
  by destruct (matches wd node).
Qed.

Lemma chain_find_false (chain : list word) (wd : word) :
  chain_find chain wd = false <->
  forall x, x ∈ chain -> fold_case x <> fold_case wd.
Proof.
  induction chain as [|node next IH]; simpl.
  - split; [|done]. intros _ x Hx. by apply elem_of_nil in Hx.
  - fold (matches wd node). destruct (matches wd node) eqn:E.
    + split; [done|]. intros H. exfalso.
      apply (H node); [by left|]. by apply matches_true.
    + rewrite IH. apply matches_false in E. split.
      * intros H x Hx. apply elem_of_cons in Hx as [->|Hx]; auto.
      * intros H x Hx. apply H. by right.
Qed.

Lemma chain_find_congruence (chain : list word) (wd wd' : word) :
  strcasecmp wd wd' = 0 -> chain_find chain wd = chain_find chain wd'.
Proof.
  intros H. rewrite !chain_find_existsb.
  induction chain as [|node next IH]; [done|].
  simpl. by rewrite IH, (matches_congruence wd wd').
Qed.

Lemma chain_unlink_not_found (chain : list word) (wd : word) :
  chain_find chain wd = false -> chain_unlink chain wd = chain.
Proof.
  induction chain as [|node next IH]; [done|]. simpl.
  destruct (strcasecmp node wd =? 0); [done|]. intros H. by rewrite IH.
Qed.

(** What the unlinking loop does when it finds a match: exactly one
    node leaves, the first matching one. *)
Lemma chain_unlink_found (chain : list word) (wd : word) :
  chain_find chain wd = true ->
  exists before node after,
    chain = before ++ node :: after /\
    strcasecmp node wd = 0 /\
    chain_find before wd = false /\
    chain_unlink chain wd = before ++ after.
Proof.
  induction chain as [|node next IH]; [done|]. simpl.
  destruct (Z.eqb_spec (strcasecmp node wd) 0) as [E|E].
  - intros _. by exists [], node, next.
  - intros H. destruct (IH H) as (before & x & after & -> & Hx & Hb & Hu).
    exists (node :: before), x, after. simpl.
    rewrite Hu, Hb. repeat split; try done.
    by destruct (Z.eqb_spec (strcasecmp node wd) 0).
Qed.

Lemma chain_unlink_sublist (chain : list word) (wd : word) :
  chain_unlink chain wd `sublist_of` chain.
Proof.
  induction chain as [|node next IH]; [done|]. simpl.
  destruct (strcasecmp node wd =? 0).
  - by apply sublist_cons.
  - by apply sublist_skip.
Qed.

Lemma chain_unlink_filter (chain : list word) (wd : word) :
  NoDup (map fold_case chain) ->
  chain_unlink chain wd = List.filter (fun x => negb (matches wd x)) chain.
Proof.
  induction chain as [|node next IH]; [done|].
  simpl. fold (matches wd node). intros Hnd.
  apply NoDup_cons in Hnd as [Hnotin Hnd].
  destruct (matches wd node) eqn:E; simpl; [|by rewrite IH].
  symmetry. apply forallb_filter_id, forallb_forall. intros x Hx.
  apply negb_true_iff, matches_false. intros Heq. apply Hnotin.
  apply matches_true in E. rewrite E, <- Heq.
  apply list_elem_of_fmap_2. by apply list_elem_of_In.
Qed.

(** ** Tables *)

Lemma bucket_index_lt (t : HashTable) (wd : word) :
  table_shape t -> (bucket_index t wd < length (buckets t))%nat.
Proof.
  intros [Hpos Hlen]. rewrite Hlen. by apply (home_lt (size t) wd).
Qed.

Lemma enumerate_concat (t : HashTable) :
  length (buckets t) = size t -> enumerate t = concat (buckets t).
Proof.
  unfold enumerate. intros <-. generalize (buckets t). clear t.
  induction l as [|chain l IH] using rev_ind; [done|].
  rewrite length_app, seq_app, flat_map_app, concat_app. simpl.
  rewrite list_lookup_total_middle by lia. rewrite !app_nil_r.
  f_equal. rewrite <- IH. rewrite !flat_map_concat_map. f_equal.
  apply map_ext_in. intros i Hi. apply in_seq in Hi.
  apply lookup_total_app_l. lia.
Qed.

(** [insert_word] in one equation: the table it returns. *)
Lemma insert_word_table (t : HashTable) (wd : word) (w : World) :
  fst (insert_word t wd w) =
    let index := bucket_index t wd in
    let chain := buckets t !!! index in
    if chain_find chain wd then t
    else if allocation_succeeds w
         then mkHashTable (<[index := c_str wd :: chain]> (buckets t)) (size t)
         else t.
Proof.
  unfold insert_word, allocation_succeeds, strdup, malloc. simpl.
  destruct (chain_find _ wd); [done|].
  destruct (heap_oracle w) as [|[] [|[] o]] eqn:E; simpl;
    rewrite ?E; reflexivity.
Qed.

Lemma insert_word_size (t : HashTable) (wd : word) (w : World) :
  size (fst (insert_word t wd w)) = size t /\
  length (buckets (fst (insert_word t wd w))) = length (buckets t).
Proof.
  rewrite insert_word_table. simpl.
  destruct (chain_find _ wd); [done|].
  destruct (allocation_succeeds w); [|done].
  simpl. by rewrite length_insert.
Qed.

Lemma insert_word_shape (t : HashTable) (wd : word) (w : World) :
  table_shape t -> table_shape (fst (insert_word t wd w)).
Proof.
  intros [Hpos Hlen]. destruct (insert_word_size t wd w) as [Hs Hl].
  split; congruence.
Qed.

Lemma remove_word_shape (t : HashTable) (wd : word) :
  table_shape t -> table_shape (remove_word t wd).
Proof.
  intros [Hpos Hlen]. split; simpl; [done|]. by rewrite length_insert.
Qed.

Lemma chain_invariant_size (t t' : HashTable) (i : nat) (chain : list word) :
  size t' = size t -> chain_invariant t i chain -> chain_invariant t' i chain.
Proof.
  intros Hs [Hhome Hnd]. split; [|done].
  eapply Forall_impl; [exact Hhome|]. intros x Hx.
  unfold bucket_index in *. by rewrite Hs.
Qed.

Lemma insert_word_invariant (t : HashTable) (wd : word) (w : World) :
  set_invariant t -> set_invariant (fst (insert_word t wd w)).
Proof.
  intros [Hshape Hinv]. split; [by apply insert_word_shape|].
  pose proof (bucket_index_lt t wd Hshape) as Hlt.
  rewrite insert_word_table. simpl.
  destruct (chain_find _ wd) eqn:Hfind; [done|].
  destruct (allocation_succeeds w); [|done].
  intros i chain. simpl.
  destruct (decide (bucket_index t wd = i)) as [<-|Hne].
  - rewrite list_lookup_insert_eq by done. intros [= <-].
    pose proof (Hinv _ _ (list_lookup_lookup_total_lt _ _ Hlt))
      as [Hhome Hnd].
    split.
    + constructor.
      * unfold bucket_index. simpl. apply (home_fold_case (size t)).
        apply fold_case_c_str.
      * done.
    + simpl. constructor; [|done].
      rewrite fold_case_c_str. intros Hin.
      apply list_elem_of_fmap in Hin as (x & Hx & Hin).
      eapply chain_find_false in Hfind; [|exact Hin]. done.
  - rewrite list_lookup_insert_ne by done. intros Hl.
    eapply chain_invariant_size; [|by apply Hinv]. done.
Qed.

Lemma remove_word_invariant (t : HashTable) (wd : word) :
  set_invariant t -> set_invariant (remove_word t wd).
Proof.
  intros [Hshape Hinv]. split; [by apply remove_word_shape|].
  pose proof (bucket_index_lt t wd Hshape) as Hlt.
  intros i chain. unfold remove_word. simpl.
  destruct (decide (bucket_index t wd = i)) as [<-|Hne].
  - rewrite list_lookup_insert_eq by done. intros [= <-].
    pose proof (Hinv _ _ (list_lookup_lookup_total_lt _ _ Hlt))
      as [Hhome Hnd].
    pose proof (chain_unlink_sublist (buckets t !!! bucket_index t wd) wd)
      as Hsub.
    split.
    + apply Forall_forall. intros x Hx.
      rewrite Forall_forall in Hhome. apply Hhome.
      by eapply elem_of_sublist.
    + eapply sublist_NoDup; [exact Hnd|]. by apply fmap_sublist.
  - rewrite list_lookup_insert_ne by done. intros Hl.
    eapply chain_invariant_size; [|by apply Hinv]. done.
Qed.

Lemma dispatch_invariant (mode : ProcessMode) (wd : word)
  (st : HashTable * World) :
  set_invariant (fst st) -> set_invariant (fst (dispatch mode wd st)).
Proof.
  destruct mode; simpl.
  - apply insert_word_invariant.
  - apply remove_word_invariant.
Qed.

Lemma run_invariant (ops : list (ProcessMode * word))
  (st : HashTable * World) :
  set_invariant (fst st) -> set_invariant (fst (run ops st)).
Proof.
  revert st. induction ops as [|[mode wd] ops IH]; intros st H; [done|].
  simpl. apply IH. by apply dispatch_invariant.
Qed.

Lemma create_hash_table_some (n : nat) (w0 w : World) (t : HashTable) :
  create_hash_table n w0 = (Some t, w) ->
  t = mkHashTable (replicate n []) n.
Proof.
  unfold create_hash_table, malloc.
  destruct (heap_oracle w0) as [|[] [|[] o]] eqn:E; simpl;
    rewrite ?E; simpl; congruence.
Qed.

Lemma empty_table_invariant (n : nat) :
  (0 < n)%nat -> set_invariant (mkHashTable (replicate n []) n).
Proof.
  intros Hn. split.
  - split; simpl; [done|]. apply length_replicate.
  - intros i chain Hl. simpl in Hl.
    apply lookup_replicate in Hl as [-> _]. split; constructor.
Qed.

(** The invariant in the words of the data model. *)
Lemma set_invariant_entries (t : HashTable) :
  set_invariant t ->
  no_case_duplicates t /\ in_home_bucket t /\ once_per_chain t.
Proof.
  intros [Hshape Hinv].
  assert (in_home_bucket t) as Hhome.
  { intros i k x (chain & Hc & Hx).
    destruct (Hinv _ _ Hc) as [Hall _].
    rewrite Forall_forall in Hall. symmetry. apply Hall.
    by eapply list_elem_of_lookup_2. }
  split; [|split; [done|]].
  - intros i k x j l y Hx Hy Hcmp.
    assert (i = j) as <-.
    { rewrite (Hhome _ _ _ Hx), (Hhome _ _ _ Hy). unfold bucket_index.
      apply (home_fold_case (size t)). by apply strcasecmp_zero_iff. }
    split; [done|].
    destruct Hx as (chain & Hc & Hx). destruct Hy as (chain' & Hc' & Hy).
    assert (chain' = chain) as -> by congruence.
    destruct (Hinv _ _ Hc) as [_ Hnd].
    eapply NoDup_lookup; [exact Hnd| |].
    + rewrite list_lookup_fmap, Hx. done.
    + rewrite list_lookup_fmap, Hy. simpl. f_equal. symmetry.
      by apply strcasecmp_zero_iff.
  - intros i chain Hc. destruct (Hinv _ _ Hc) as [_ Hnd].
    by apply NoDup_fmap_1 in Hnd.
Qed.

(** C2.  From an empty table of [n > 0] buckets, any sequence of insert
    and remove calls (with any allocation outcomes) leads to a table in
    which no two entries are equal under [strcasecmp], every entry lies
    in the bucket [hash_string word mod n], and no chain holds a word
    twice. *)
Theorem set_invariant_reachable (n : nat) (w0 w : World) (t0 : HashTable)
  (ops : list (ProcessMode * word)) :
  (0 < n)%nat ->
  create_hash_table n w0 = (Some t0, w) ->
  let t := fst (run ops (t0, w)) in
  no_case_duplicates t /\ in_home_bucket t /\ once_per_chain t.
Proof.
  intros Hn Hcreate t. apply set_invariant_entries.
  apply run_invariant. simpl.
  rewrite (create_hash_table_some _ _ _ _ Hcreate).
  by apply empty_table_invariant.
Qed.

(** ** Frame *)

Lemma remove_word_not_found (t : HashTable) (wd : word) :
  chain_find (buckets t !!! bucket_index t wd) wd = false ->
  remove_word t wd = t.
Proof.
  intros H. unfold remove_word. rewrite chain_unlink_not_found by done.
  destruct t as [bs n]. simpl. f_equal.
  destruct (decide (bucket_index (mkHashTable bs n) wd < length bs)%nat)
    as [Hlt|Hge].
  - apply list_insert_id. by apply list_lookup_lookup_total_lt.
  - apply list_insert_ge. lia.
Qed.

(** C9.  [insert_word] and [remove_word] touch one bucket only, the one
    at index [hash_string word mod size]: every other bucket is left as it
    was; in the target bucket an insert either changes nothing or links
    one new node in front of the unchanged chain, and a remove either
    changes nothing or takes one matching node out, the others keeping
    their order. *)
Theorem insert_remove_frame (t : HashTable) (wd : word) (w : World) :
  table_shape t ->
  let index := bucket_index t wd in
  let chain := buckets t !!! index in
  let ti := fst (insert_word t wd w) in
  let tr := remove_word t wd in
  (size ti = size t /\ size tr = size t) /\
  (forall i, i <> index ->
     buckets ti !! i = buckets t !! i /\ buckets tr !! i = buckets t !! i) /\
  (buckets ti !!! index = chain \/
   buckets ti !!! index = c_str wd :: chain) /\
  (buckets tr !!! index = chain \/
   exists before node after,
     chain = before ++ node :: after /\
     strcasecmp node wd = 0 /\
     buckets tr !!! index = before ++ after).
Proof.
  intros Hshape index chain ti tr.
  pose proof (bucket_index_lt t wd Hshape) as Hlt. fold index in Hlt.
  subst ti tr. rewrite insert_word_table. fold index. fold chain.
  unfold remove_word. fold index. fold chain. simpl.
  split; [split; [|done]|split; [|split]].
  - destruct (chain_find chain wd); [done|].
    by destruct (allocation_succeeds w).
  - intros i Hi. split; [|by rewrite list_lookup_insert_ne].
    destruct (chain_find chain wd); [done|].
    destruct (allocation_succeeds w); [|done].
    simpl. by rewrite list_lookup_insert_ne.
  - destruct (chain_find chain wd); [by left|].
    destruct (allocation_succeeds w); [|by left].
    right. simpl. by rewrite list_lookup_total_insert_eq.
  - rewrite list_lookup_total_insert_eq by done.
    destruct (chain_find chain wd) eqn:Hfind.
    + right. destruct (chain_unlink_found _ _ Hfind)
        as (before & node & after & Hc & Hn & _ & Hu).
      by exists before, node, after.
    + left. by apply chain_unlink_not_found.
Qed.

Lemma insert_remove_frame_witness :
  let t := mkHashTable [[text "a"]; [text "bb"]] 2 in
  table_shape t /\
  buckets (remove_word t (text "A")) !! 1%nat = Some [text "bb"].
Proof.
  intros t.
  assert (table_shape t) as Hshape by (split; simpl; lia).
  split; [exact Hshape|].
  pose proof (insert_remove_frame t (text "A") (mkWorld [] [] [] []) Hshape)
    as H.
  cbv zeta in H. destruct H as (_ & Hother & _).
  destruct (Hother 1%nat) as [_ Hr]; [by vm_compute|].
  exact (eq_trans Hr eq_refl).
Defined.

(** ** Allocation failure *)

Lemma main_exit_status (argv : list word) (w : World) :
  (3 <= length argv)%nat ->
  is_Some (fst (create_hash_table HASH_TABLE_SIZE w)) ->
  fst (main argv w) = 0.
Proof.
  intros Hargc [t Ht]. unfold main.
  destruct (Z.ltb_spec (Z.of_nat (length argv)) 3) as [Hlt|_]; [lia|].
  destruct (create_hash_table HASH_TABLE_SIZE w) as [[t'|] w1]; [done|].
  simpl in Ht. done.
Qed.

(** C8.  When [insert_word] needs memory and the node or the copy of
    the word cannot be allocated, it writes a message to the error
    stream and returns with the table as it was; the operations that
    follow are carried out as usual, and [main] still ends with status
    0. *)
Theorem insert_word_allocation_failure (t : HashTable) (wd : word)
  (w : World) (o : list bool) :
  chain_find (buckets t !!! bucket_index t wd) wd = false ->
  heap_oracle w = false :: o \/ heap_oracle w = true :: false :: o ->
  exists msg,
    (msg = text "Failed to allocate memory for new node" \/
     msg = text "Failed to duplicate word string") /\
    let w' := perror msg (mkWorld o (files w) (stdout w) (stderr w)) in
    insert_word t wd w = (t, w') /\
    stdout w' = stdout w /\
    (exists report, report <> [] /\ stderr w' = stderr w ++ report) /\
    (forall ops, run ((MODE_ADD, wd) :: ops) (t, w) = run ops (t, w')) /\
    (forall argv w0,
        (3 <= length argv)%nat ->
        is_Some (fst (create_hash_table HASH_TABLE_SIZE w0)) ->
        fst (main argv w0) = 0).
Proof.
  intros Hfind Hfail.
  assert (forall msg, exists report,
             report <> [] /\
             stderr (perror msg (mkWorld o (files w) (stdout w) (stderr w)))
             = stderr w ++ report) as Hreport.
  { intros msg. eexists. split; [|reflexivity].
    intros H. apply (f_equal length) in H.
    rewrite !length_app in H. simpl in H. lia. }
  destruct Hfail as [Ho|Ho].
  - exists (text "Failed to allocate memory for new node").
    split; [by left|]. intros w'.
    assert (insert_word t wd w = (t, w')) as Hins.
    { unfold insert_word, malloc. rewrite Hfind, Ho. reflexivity. }
    split; [done|]. split; [done|]. split; [apply Hreport|].
    split; [|apply main_exit_status].
    intros ops. simpl. by rewrite Hins.
  - exists (text "Failed to duplicate word string").
    split; [by right|]. intros w'.
    assert (insert_word t wd w = (t, w')) as Hins.
    { unfold insert_word, strdup, malloc. rewrite Hfind, Ho. reflexivity. }
    split; [done|]. split; [done|]. split; [apply Hreport|].
    split; [|apply main_exit_status].
    intros ops. simpl. by rewrite Hins.
Qed.

Lemma insert_word_allocation_failure_witness :
  let t := mkHashTable (replicate 4 []) 4 in
  let w := mkWorld [true; false; true] [] [] [] in
  fst (insert_word t (text "word") w) = t.
Proof.
  intros t w.
  destruct (insert_word_allocation_failure t (text "word") w [true])
    as (msg & _ & Hins & _).
  - reflexivity.
  - right. reflexivity.
  - rewrite Hins. reflexivity.
Defined.

(** ** Idempotence of insert *)

Lemma insert_word_found (t : HashTable) (wd : word) (w : World) :
  chain_find (buckets t !!! bucket_index t wd) wd = true ->
  insert_word t wd w = (t, w).
Proof. intros H. unfold insert_word. by rewrite H. Qed.

Lemma bucket_index_strcasecmp (t : HashTable) (a b : word) :
  strcasecmp a b = 0 -> bucket_index t a = bucket_index t b.
Proof.
  intros H. apply (home_fold_case (size t)). by apply strcasecmp_zero_iff.
Qed.

(** After an insert that was not given up, the word is found in its
    chain, under any spelling. *)
Lemma insert_word_present (t : HashTable) (wd wd' : word) (w : World) :
  table_shape t ->
  strcasecmp wd wd' = 0 ->
  insert_abandoned t wd w = false ->
  let t1 := fst (insert_word t wd w) in
  chain_find (buckets t1 !!! bucket_index t1 wd') wd' = true.
Proof.
  intros Hshape Hcmp Hdone t1. subst t1.
  pose proof (bucket_index_lt t wd Hshape) as Hlt.
  assert (forall t', size t' = size t ->
                     bucket_index t' wd' = bucket_index t wd) as Hidx.
  { intros t' Hs. rewrite <- (bucket_index_strcasecmp t' wd wd') by done.
    unfold bucket_index. by rewrite Hs. }
  rewrite Hidx by apply insert_word_size.
  rewrite insert_word_table. simpl.
  unfold insert_abandoned in Hdone.
  destruct (chain_find _ wd) eqn:Hfind.
  - by rewrite <- (chain_find_congruence _ wd wd').
  - destruct (allocation_succeeds w); [|done]. simpl.
    rewrite list_lookup_total_insert_eq by done. simpl.
    assert (strcasecmp (c_str wd) wd' = 0) as ->; [|done].
    apply strcasecmp_zero_iff. rewrite fold_case_c_str.
    by apply strcasecmp_zero_iff.
Qed.

(** C5.  Once [wd] has been inserted (found already there, or added
    with its memory granted), inserting any spelling [wd'] of it returns
    without touching the table or the environment, so what the table
    enumerates stays what it was after the first insert. *)
Theorem insert_word_idempotent (t : HashTable) (wd wd' : word)
  (w w' : World) :
  table_shape t ->
  strcasecmp wd wd' = 0 ->
  insert_abandoned t wd w = false ->
  let t1 := fst (insert_word t wd w) in
  insert_word t1 wd' w' = (t1, w') /\
  enumerate (fst (insert_word t1 wd' w')) = enumerate t1.
Proof.
  intros Hshape Hcmp Hdone t1.
  assert (insert_word t1 wd' w' = (t1, w')) as H.
  { apply insert_word_found. by apply insert_word_present. }
  by rewrite H.
Qed.

Lemma insert_word_idempotent_witness :
  let t := mkHashTable (replicate 4 []) 4 in
  let w := mkWorld [] [] [] [] in
  let t1 := fst (insert_word t (text "Apple") w) in
  enumerate t1 = [text "Apple"] /\
  insert_word t1 (text "aPPLE") w = (t1, w).
Proof.
  intros t w t1. split; [reflexivity|].
  apply (insert_word_idempotent t (text "Apple") (text "aPPLE") w w).
  - split; simpl; lia.
  - reflexivity.
  - reflexivity.
Defined.

(** ** Removal *)

Lemma elem_of_enumerate (t : HashTable) (x : word) :
  table_shape t ->
  x ∈ enumerate t <->
  exists i chain, buckets t !! i = Some chain /\ x ∈ chain.
Proof.
  intros [_ Hlen]. rewrite enumerate_concat by done.
  rewrite list_elem_of_In, in_concat. split.
  - intros (chain & Hc & Hx). apply list_elem_of_In in Hc.
    apply list_elem_of_lookup in Hc as [i Hi].
    exists i, chain. split; [done|]. by apply list_elem_of_In.
  - intros (i & chain & Hi & Hx). exists chain.
    split; apply list_elem_of_In; [|done].
    by eapply list_elem_of_lookup_2.
Qed.

Lemma remove_word_absent (t : HashTable) (wd : word) :
  set_invariant t ->
  forall x, x ∈ enumerate (remove_word t wd) -> strcasecmp x wd <> 0.
Proof.
  intros Hinv x Hx.
  pose proof Hinv as [Hshape Hchains].
  pose proof (bucket_index_lt t wd Hshape) as Hlt.
  apply elem_of_enumerate in Hx; [|by apply remove_word_shape].
  destruct Hx as (i & chain & Hi & Hx). simpl in Hi.
  destruct (decide (bucket_index t wd = i)) as [<-|Hne].
  - rewrite list_lookup_insert_eq in Hi by done. injection Hi as <-.
    destruct (Hchains _ _ (list_lookup_lookup_total_lt _ _ Hlt)) as [_ Hnd].
    rewrite chain_unlink_filter in Hx by done.
    apply list_elem_of_In, filter_In in Hx as [_ Hx].
    apply negb_true_iff in Hx. unfold matches in Hx.
    by apply Z.eqb_neq in Hx.
  - rewrite list_lookup_insert_ne in Hi by done.
    destruct (Hchains _ _ Hi) as [Hhome _].
    rewrite Forall_forall in Hhome. intros Hcmp. apply Hne.
    rewrite <- (Hhome x Hx). symmetry. by apply bucket_index_strcasecmp.
Qed.

Lemma remove_word_unlinks_one (t : HashTable) (wd : word) :
  table_shape t ->
  remove_word t wd = t \/
  exists before node after,
    enumerate t = before ++ node :: after /\
    strcasecmp node wd = 0 /\
    enumerate (remove_word t wd) = before ++ after.
Proof.
  intros Hshape. pose proof Hshape as [_ Hlen].
  pose proof (bucket_index_lt t wd Hshape) as Hlt.
  destruct (chain_find (buckets t !!! bucket_index t wd) wd) eqn:Hfind.
  - right. destruct (chain_unlink_found _ _ Hfind)
      as (b & node & a & Hc & Hn & _ & Hu).
    exists (concat (take (bucket_index t wd) (buckets t)) ++ b), node,
      (a ++ concat (drop (S (bucket_index t wd)) (buckets t))).
    split; [|split; [done|]].
    + rewrite enumerate_concat by done.
      rewrite <- (take_drop_middle (buckets t) (bucket_index t wd)
                    (buckets t !!! bucket_index t wd)) at 1
        by (by apply list_lookup_lookup_total_lt).
      rewrite concat_app. simpl. rewrite Hc, <- !app_assoc. done.
    + rewrite enumerate_concat
        by (simpl; by rewrite length_insert).
      simpl. rewrite insert_take_drop by done.
      rewrite concat_app. simpl. rewrite Hu, <- !app_assoc. done.
  - left. by apply remove_word_not_found.
Qed.

(** C6.  In a table that satisfies the set invariant: after inserting a
    word and removing any spelling of it (as "Apple" then "apple"), no
    entry equal to it under [strcasecmp] is enumerated; a remove either
    leaves the table as it is or takes exactly one matching entry out of
    the enumeration; and when no entry matches, the remove changes
    neither the table nor the environment. *)
Theorem remove_word_case_insensitive (t : HashTable) (wd wd' : word)
  (w : World) :
  set_invariant t ->
  strcasecmp wd wd' = 0 ->
  (forall x,
      x ∈ enumerate (remove_word (fst (insert_word t wd w)) wd') ->
      strcasecmp x wd' <> 0) /\
  (remove_word t wd' = t \/
   exists before node after,
     enumerate t = before ++ node :: after /\
     strcasecmp node wd' = 0 /\
     enumerate (remove_word t wd') = before ++ after) /\
  ((forall x, x ∈ enumerate t -> strcasecmp x wd' <> 0) ->
   dispatch MODE_REMOVE wd' (t, w) = (t, w)).
Proof.
  intros Hinv Hcmp. pose proof Hinv as [Hshape Hchains].
  split; [|split].
  - apply remove_word_absent. by apply insert_word_invariant.
  - by apply remove_word_unlinks_one.
  - intros Hnone. simpl. f_equal. apply remove_word_not_found.
    apply chain_find_false. intros x Hx Hfold.
    apply (Hnone x).
    + apply elem_of_enumerate; [done|].
      exists (bucket_index t wd'), (buckets t !!! bucket_index t wd').
      split; [|done]. apply list_lookup_lookup_total_lt.
      by apply bucket_index_lt.
    + by apply strcasecmp_zero_iff.
Qed.

Lemma remove_word_case_insensitive_witness :
  let t := mkHashTable (replicate 4 []) 4 in
  let w := mkWorld [] [] [] [] in
  set_invariant t /\
  enumerate (fst (insert_word t (text "Apple") w)) = [text "Apple"] /\
  forall x,
    x ∈ enumerate (remove_word (fst (insert_word t (text "Apple") w))
                     (text "apple")) ->
    strcasecmp x (text "apple") <> 0.
Proof.
  intros t w.
  assert (set_invariant t) as Hinv by (apply empty_table_invariant; lia).
  split; [exact Hinv|]. split; [reflexivity|].
  apply (remove_word_case_insensitive t (text "Apple") (text "apple") w).
  - exact Hinv.
  - reflexivity.
Defined.

(** ** Enumeration order *)

Lemma NoDup_map_filter {A B : Type} (f : A -> B) (p : A -> bool)
  (l : list A) :
  NoDup (map f l) -> NoDup (map f (List.filter p l)).
Proof.
  induction l as [|x l IH]; [done|]. simpl. intros Hnd.
  apply NoDup_cons in Hnd as [Hx Hnd].
  destruct (p x); [|by apply IH]. simpl. constructor; [|by apply IH].
  intros Hin. apply Hx.
  apply list_elem_of_fmap in Hin as (y & -> & Hy).
  apply list_elem_of_fmap_2.
  apply list_elem_of_In. apply list_elem_of_In, filter_In in Hy. tauto.
Qed.

Lemma filter_comm {A : Type} (p q : A -> bool) (l : list A) :
  List.filter p (List.filter q l) = List.filter q (List.filter p l).
Proof.
  induction l as [|x l IH]; [done|]. simpl.
  destruct (q x) eqn:Hq; destruct (p x) eqn:Hp; simpl;
    rewrite ?Hq, ?Hp, IH; done.
Qed.

(** Looking for a word in its home chain is looking for it anywhere. *)
Lemma existsb_home_chain (n : nat) (wd : word) (c : list word) :
  existsb (matches wd) (rev (of_bucket n (home n wd) c)) =
  existsb (matches wd) c.
Proof.
  apply eq_true_iff_eq. rewrite !existsb_exists. split.
  - intros (x & Hx & Hm). exists x. split; [|done].
    apply in_rev, filter_In in Hx. tauto.
  - intros (x & Hx & Hm). exists x. split; [|done].
    apply in_rev. rewrite rev_involutive. apply filter_In. split; [done|].
    apply Nat.eqb_eq, home_fold_case. by apply matches_true.
Qed.

Lemma of_bucket_snoc (n i : nat) (c : list word) (x : word) :
  of_bucket n i (c ++ [x]) =
    of_bucket n i c ++ (if Nat.eqb (home n x) i then [x] else []).
Proof. unfold of_bucket. by rewrite List.filter_app. Qed.

Lemma of_bucket_unmatched (n i : nat) (wd : word) (c : list word) :
  i <> home n wd ->
  List.filter (fun x => negb (matches wd x)) (of_bucket n i c) =
  of_bucket n i c.
Proof.
  intros Hne. apply forallb_filter_id, forallb_forall. intros x Hx.
  apply filter_In in Hx as [_ Hx]. apply Nat.eqb_eq in Hx.
  apply negb_true_iff, matches_false. intros Hfold. apply Hne.
  rewrite <- Hx. by apply home_fold_case.
Qed.

Lemma chronicled_insert (n : nat) (t : HashTable) (c : list word)
  (wd : word) (w : World) :
  (0 < n)%nat ->
  chronicled n t c ->
  chronicled n (fst (insert_word t wd w)) (chronicle_step (MODE_ADD, wd) w c).
Proof.
  intros Hn (Hsize & Hlen & Hnd & Hchains).
  assert (bucket_index t wd = home n wd) as Hidx
      by (unfold bucket_index; by rewrite Hsize).
  pose proof (home_lt n wd Hn) as Hlt.
  rewrite insert_word_table. unfold chronicle_step. simpl.
  rewrite Hidx, chain_find_existsb, (Hchains _ Hlt), existsb_home_chain.
  destruct (existsb (matches wd) c) eqn:Hfind; [done|].
  destruct (allocation_succeeds w); [|done].
  split; [done|]. split; [simpl; by rewrite length_insert|]. split.
  - rewrite map_app. apply NoDup_app. split; [done|].
    split; [|apply NoDup_singleton].
    intros y Hy Hy'. apply list_elem_of_singleton in Hy'. subst y.
    apply list_elem_of_fmap in Hy as (x & Hfold & Hx).
    rewrite fold_case_c_str in Hfold.
    assert (existsb (matches wd) c = true); [|congruence].
    apply existsb_exists. exists x. split; [by apply list_elem_of_In|].
    by apply matches_true.
  - intros i Hi. simpl. rewrite of_bucket_snoc.
    assert (home n (c_str wd) = home n wd) as ->
        by apply home_fold_case, fold_case_c_str.
    destruct (Nat.eqb_spec (home n wd) i) as [<-|Hne].
    + rewrite list_lookup_total_insert_eq by lia.
      by rewrite rev_unit.
    + rewrite list_lookup_total_insert_ne by done.
      rewrite app_nil_r. by apply Hchains.
Qed.

Lemma chronicled_remove (n : nat) (t : HashTable) (c : list word)
  (wd : word) (w : World) :
  (0 < n)%nat ->
  chronicled n t c ->
  chronicled n (remove_word t wd) (chronicle_step (MODE_REMOVE, wd) w c).
Proof.
  intros Hn (Hsize & Hlen & Hnd & Hchains).
  assert (bucket_index t wd = home n wd) as Hidx
      by (unfold bucket_index; by rewrite Hsize).
  pose proof (home_lt n wd Hn) as Hlt.
  unfold chronicle_step, remove_word. simpl. rewrite Hidx.
  split; [done|]. split; [simpl; by rewrite length_insert|].
  split; [by apply NoDup_map_filter|].
  intros i Hi. simpl. unfold of_bucket at 1. rewrite filter_comm.
  fold (of_bucket n i c).
  destruct (decide (home n wd = i)) as [<-|Hne].
  - rewrite list_lookup_total_insert_eq by lia.
    rewrite (Hchains _ Hlt), chain_unlink_filter.
    + apply filter_rev.
    + rewrite map_rev. apply NoDup_ListNoDup, List.NoDup_rev, NoDup_ListNoDup.
      by apply NoDup_map_filter.
  - rewrite list_lookup_total_insert_ne by done.
    rewrite of_bucket_unmatched by done. by apply Hchains.
Qed.

Lemma chronicled_run (n : nat) (ops : list (ProcessMode * word))
  (st : HashTable * World) (c : list word) :
  (0 < n)%nat ->
  chronicled n (fst st) c ->
  chronicled n (fst (run ops st)) (chronicle ops st c).
Proof.
  intros Hn. revert st c.
  induction ops as [|[mode wd] ops IH]; intros st c H; [done|].
  simpl. apply IH. destruct mode; simpl.
  - by apply chronicled_insert.
  - by apply chronicled_remove.
Qed.

Lemma chronicled_empty (n : nat) :
  chronicled n (mkHashTable (replicate n []) n) [].
Proof.
  split; [done|]. split; [apply length_replicate|].
  split; [constructor|]. intros i Hi. simpl.
  apply list_lookup_total_correct. by apply lookup_replicate_2.
Qed.

Lemma chronicled_enumerate (n : nat) (t : HashTable) (c : list word) :
  chronicled n t c ->
  enumerate t = flat_map (fun i => rev (of_bucket n i c)) (seq 0 n).
Proof.
  intros (Hsize & _ & _ & Hchains). unfold enumerate. rewrite Hsize.
  rewrite !flat_map_concat_map. f_equal. apply map_ext_in.
  intros i Hi. apply in_seq in Hi. apply Hchains. lia.
Qed.

(** C7, as the code has it.  After any sequence of operations on a
    table created with [n > 0] buckets, [print_table] visits the buckets
    in index order and, within a bucket, the words in the reverse of the
    order in which the inserts added them (latest first): a new node is
    linked at the head of its chain. *)
Theorem enumerate_latest_first (n : nat) (w0 w : World) (t0 : HashTable)
  (ops : list (ProcessMode * word)) :
  (0 < n)%nat ->
  create_hash_table n w0 = (Some t0, w) ->
  enumerate (fst (run ops (t0, w))) =
    flat_map (fun i => rev (of_bucket n i (chronicle ops (t0, w) [])))
             (seq 0 n).
Proof.
  intros Hn Hcreate. apply chronicled_enumerate.
  apply chronicled_run; [done|]. simpl.
  rewrite (create_hash_table_some _ _ _ _ Hcreate).
  apply chronicled_empty.
Qed.

Lemma enumerate_latest_first_witness :
  let w := mkWorld [] [] [] [] in
  let t0 := mkHashTable (replicate 2 []) 2 in
  let ops := [(MODE_ADD, text "a"); (MODE_ADD, text "c"); (MODE_ADD, text "bb")] in
  chronicle ops (t0, w) [] = [text "a"; text "c"; text "bb"] /\
  enumerate (fst (run ops (t0, w))) = [text "c"; text "a"; text "bb"].
Proof.
  intros w t0 ops. split; [reflexivity|].
  rewrite (enumerate_latest_first 2 w w t0 ops); [reflexivity|lia|reflexivity].
Defined.

(** *** Enumerating a sparsely filled table *)

Lemma flat_map_seq_nil {A : Type} (f : nat -> list A) (a len : nat) :
  (forall i, (a <= i < a + len)%nat -> f i = []) ->
  flat_map f (seq a len) = [].
Proof.
  revert a. induction len as [|len IH]; intros a H; [done|].
  simpl. rewrite (H a) by lia. simpl. apply IH. intros i Hi. apply H. lia.
Qed.

Lemma ascending_lower_bound (lo : nat) (indices : list nat) :
  ascending lo indices = true -> forall j, j ∈ indices -> (lo <= j)%nat.
Proof.
  revert lo. induction indices as [|k rest IH]; intros lo H j Hj.
  - by apply elem_of_nil in Hj.
  - simpl in H. apply andb_true_iff in H as [Hk Hrest].
    apply Nat.leb_le in Hk.
    apply elem_of_cons in Hj as [->|Hj]; [done|].
    specialize (IH _ Hrest _ Hj). lia.
Qed.

Lemma flat_map_seq_sparse {A : Type} (f : nat -> list A)
  (indices : list nat) (a len : nat) :
  ascending a indices = true ->
  Forall (fun j => (j < a + len)%nat) indices ->
  (forall i, (a <= i < a + len)%nat -> i ∉ indices -> f i = []) ->
  flat_map f (seq a len) = flat_map f indices.
Proof.
  revert a len.
  induction indices as [|j rest IH]; intros a len Hasc Hbound Hnil.
  - apply flat_map_seq_nil. intros i Hi. apply Hnil; [done|].
    apply not_elem_of_nil.
  - simpl in Hasc. apply andb_true_iff in Hasc as [Hj Hrest].
    apply Nat.leb_le in Hj. apply Forall_cons in Hbound as [Hjlt Hbound].
    pose proof (ascending_lower_bound _ _ Hrest) as Hlow.
    replace len with ((j - a) + S (a + len - S j))%nat by lia.
    rewrite seq_app, flat_map_app.
    replace (a + (j - a))%nat with j by lia. simpl.
    rewrite flat_map_seq_nil.
    + simpl. f_equal. apply IH; [done| |].
      * eapply Forall_impl; [exact Hbound|]. simpl. intros k Hk. lia.
      * intros i Hi Hnotin. apply Hnil; [lia|].
        intros Hin. apply elem_of_cons in Hin as [->|Hin]; [lia|done].
    + intros i Hi. apply Hnil; [lia|].
      intros Hin. apply elem_of_cons in Hin as [->|Hin]; [lia|].
      specialize (Hlow _ Hin). lia.
Qed.

(** Only the home buckets of the chronicle's words need a visit. *)
Lemma buckets_sparse (g : list word -> list word) (n : nat)
  (c : list word) (indices : list nat) :
  g [] = [] ->
  ascending 0 indices = true ->
  forallb (fun j => (j <? n)%nat) indices = true ->
  forallb (fun x => existsb (Nat.eqb (home n x)) indices) c = true ->
  flat_map (fun i => g (of_bucket n i c)) (seq 0 n) =
  flat_map (fun i => g (of_bucket n i c)) indices.
Proof.
  intros Hg Hasc Hbound Hhomes. apply flat_map_seq_sparse; [done| |].
  - apply Forall_forall. intros j Hj.
    rewrite forallb_forall in Hbound.
    apply list_elem_of_In, Hbound, Nat.ltb_lt in Hj. lia.
  - intros i _ Hnotin.
    assert (of_bucket n i c = []) as ->; [|done].
    unfold of_bucket. rewrite <- (filter_false c).
    apply filter_ext_in. intros x Hx. apply Nat.eqb_neq. intros <-.
    apply Hnotin. rewrite forallb_forall in Hhomes.
    apply Hhomes, existsb_exists in Hx as (j & Hj & Heq).
    apply Nat.eqb_eq in Heq. rewrite Heq. by apply list_elem_of_In.
Qed.

Lemma enumerate_run (n : nat) (w : World)
  (ops : list (ProcessMode * word)) :
  (0 < n)%nat ->
  let st := (mkHashTable (replicate n []) n, w) in
  enumerate (fst (run ops st)) =
    flat_map (fun i => rev (of_bucket n i (chronicle ops st [])))
             (seq 0 n).
Proof.
  intros Hn st. apply chronicled_enumerate.
  apply chronicled_run; [done|]. apply chronicled_empty.
Qed.

Lemma buckets_sparse_in_order (n : nat) (c : list word)
  (indices : list nat) :
  ascending 0 indices = true ->
  forallb (fun j => (j <? n)%nat) indices = true ->
  forallb (fun x => existsb (Nat.eqb (home n x)) indices) c = true ->
  flat_map (fun i => of_bucket n i c) (seq 0 n) =
  flat_map (fun i => of_bucket n i c) indices.
Proof. exact (buckets_sparse id n c indices eq_refl). Qed.

Lemma HASH_TABLE_SIZE_pos : (0 < HASH_TABLE_SIZE)%nat.
Proof. apply Nat.ltb_lt. vm_compute. reflexivity. Qed.

(** The enumeration of a table grown from the empty one, read off the
    chronicle at the home buckets of its words. *)
Lemma enumerate_run_sparse (n : nat) (w : World)
  (ops : list (ProcessMode * word)) (c : list word) (indices : list nat) :
  (0 < n)%nat ->
  let st := (mkHashTable (replicate n []) n, w) in
  chronicle ops st [] = c ->
  ascending 0 indices = true ->
  forallb (fun j => (j <? n)%nat) indices = true ->
  forallb (fun x => existsb (Nat.eqb (home n x)) indices) c = true ->
  enumerate (fst (run ops st)) =
    flat_map (fun i => rev (of_bucket n i c)) indices.
Proof.
  intros Hn st Hc Hasc Hbound Hhomes. subst st.
  rewrite (enumerate_run n w ops Hn). cbv zeta. rewrite Hc.
  by apply (buckets_sparse (@rev word)).
Qed.

(** C7, as the claim words it, fails: "bank" and "word" share bucket
    14305 of the 16384; inserted in this order they are enumerated as
    "word", "bank". *)
Lemma enumerate_not_insertion_order :
  let w := mkWorld [] [] [] [] in
  let t0 := mkHashTable (replicate HASH_TABLE_SIZE []) HASH_TABLE_SIZE in
  let ops := [(MODE_ADD, text "bank"); (MODE_ADD, text "word")] in
  create_hash_table HASH_TABLE_SIZE w = (Some t0, w) /\
  chronicle ops (t0, w) [] = [text "bank"; text "word"] /\
  enumerate (fst (run ops (t0, w))) = [text "word"; text "bank"] /\
  enumerate (fst (run ops (t0, w))) <>
    flat_map (fun i => of_bucket HASH_TABLE_SIZE i (chronicle ops (t0, w) []))
             (seq 0 HASH_TABLE_SIZE).
Proof.
  intros w t0 ops.
  assert (chronicle ops (t0, w) [] = [text "bank"; text "word"]) as Hc
      by (vm_compute; reflexivity).
  assert (enumerate (fst (run ops (t0, w))) = [text "word"; text "bank"])
    as He.
  { subst t0.
    rewrite (enumerate_run_sparse HASH_TABLE_SIZE w ops _ [Z.to_nat 14305]
               HASH_TABLE_SIZE_pos Hc);
      vm_compute; reflexivity. }
  split; [reflexivity|]. split; [exact Hc|]. split; [exact He|].
  rewrite Hc, He.
  rewrite (buckets_sparse_in_order HASH_TABLE_SIZE _ [Z.to_nat 14305])
    by (vm_compute; reflexivity).
  vm_compute. discriminate.
Qed.

(** ** Printing *)

Lemma print_chain_streams (chain : list word) (w : World) :
  stdout (print_chain chain w) = stdout w ++ concat (map line chain) /\
  stderr (print_chain chain w) = stderr w.
Proof.
  revert w. induction chain as [|node next IH]; intros w; simpl.
  - by rewrite app_nil_r.
  - destruct (IH (printf (c_str node ++ [newline]) w)) as [-> ->].
    simpl. by rewrite <- app_assoc.
Qed.

Lemma print_table_streams (t : HashTable) (w : World) :
  stdout (print_table t w) = stdout w ++ concat (map line (enumerate t)) /\
  stderr (print_table t w) = stderr w.
Proof.
  unfold print_table, enumerate. generalize (seq 0 (size t)). intros l.
  revert w. induction l as [|i l IH]; intros w; simpl.
  - by rewrite app_nil_r.
  - destruct (IH (print_chain (buckets t !!! i) w)) as [-> ->].
    destruct (print_chain_streams (buckets t !!! i) w) as [-> ->].
    by rewrite map_app, concat_app, <- app_assoc.
Qed.

(** ** The whole program on the set-difference example *)

Lemma main_two_files (prog source exclusion : word) (w w1 : World)
  (t : HashTable) :
  create_hash_table HASH_TABLE_SIZE w = (Some t, w1) ->
  main [prog; source; exclusion] w =
    let w2 := printf (text "Processing source file: " ++ c_str source
                      ++ [newline]) w1 in
    let st4 := exclusion_pass (process_file source t MODE_ADD w2) exclusion in
    (0, print_table (fst st4)
          (printf ([newline] ++ text "--- Final Vocabulary ---" ++ [newline])
                  (snd st4))).
Proof. intros Hcreate. unfold main. rewrite Hcreate. reflexivity. Qed.

Lemma chronicled_process_file (n : nat) (filename : word) (t : HashTable)
  (mode : ProcessMode) (w : World) (c : list word) (contents : list ascii) :
  (0 < n)%nat ->
  fopen filename w = Some contents ->
  chronicled n t c ->
  chronicled n (fst (process_file filename t mode w))
    (chronicle (map (pair mode) (tokens contents)) (t, w) c).
Proof.
  intros Hn Hopen Hc. rewrite (process_file_run _ _ _ _ _ Hopen).
  by apply chronicled_run.
Qed.

Lemma chronicled_enumerate_sparse (n : nat) (t : HashTable)
  (c : list word) (indices : list nat) :
  chronicled n t c ->
  ascending 0 indices = true ->
  forallb (fun j => (j <? n)%nat) indices = true ->
  forallb (fun x => existsb (Nat.eqb (home n x)) indices) c = true ->
  enumerate t = flat_map (fun i => rev (of_bucket n i c)) indices.
Proof.
  intros Hc Hasc Hbound Hhomes. rewrite (chronicled_enumerate n t c Hc).
  by apply (buckets_sparse (@rev word)).
Qed.

(** *** Runs in which no allocation is refused *)

Lemma insert_word_no_failure (t : HashTable) (wd : word) (w : World) :
  heap_oracle w = [] -> snd (insert_word t wd w) = w.
Proof.
  intros H. unfold insert_word, strdup, malloc.
  destruct (chain_find _ wd); [done|]. rewrite H. simpl. by rewrite H.
Qed.

Lemma dispatch_no_failure (mode : ProcessMode) (wd : word)
  (t : HashTable) (w : World) :
  heap_oracle w = [] -> snd (dispatch mode wd (t, w)) = w.
Proof.
  intros H. destruct mode; simpl; [|done]. by apply insert_word_no_failure.
Qed.

Lemma run_no_failure (ops : list (ProcessMode * word)) (t : HashTable)
  (w : World) :
  heap_oracle w = [] -> snd (run ops (t, w)) = w.
Proof.
  intros H. revert t. induction ops as [|[mode wd] ops IH]; intros t; [done|].
  simpl. rewrite (surjective_pairing (dispatch mode wd (t, w))).
  rewrite dispatch_no_failure by done. apply IH.
Qed.

Lemma process_file_no_failure (filename : word) (t : HashTable)
  (mode : ProcessMode) (w : World) (contents : list ascii) :
  heap_oracle w = [] ->
  fopen filename w = Some contents ->
  snd (process_file filename t mode w) = w.
Proof.
  intros H Hopen. rewrite (process_file_run _ _ _ _ _ Hopen).
  by apply run_no_failure.
Qed.

(** Without refusals the chronicle does not depend on the table or on
    the rest of the environment. *)
Lemma chronicle_no_failure (ops : list (ProcessMode * word))
  (t : HashTable) (w : World) (c : list word) :
  heap_oracle w = [] ->
  chronicle ops (t, w) c =
    fold_left (fun c op => chronicle_step op (mkWorld [] [] [] []) c) ops c.
Proof.
  intros H. revert t c.
  induction ops as [|[mode wd] ops IH]; intros t c; [done|].
  simpl. rewrite (surjective_pairing (dispatch mode wd (t, w))).
  rewrite dispatch_no_failure by done. rewrite IH. f_equal.
  unfold chronicle_step, allocation_succeeds. simpl. by rewrite H.
Qed.

Lemma create_hash_table_no_failure (n : nat) (w : World) :
  heap_oracle w = [] ->
  create_hash_table n w = (Some (mkHashTable (replicate n []) n), w).
Proof.
  intros H. unfold create_hash_table, malloc. rewrite H. simpl.
  by rewrite H.
Qed.

Lemma set_difference_passes (source exclusion : word) (w wx : World) :
  heap_oracle w = [] ->
  fopen source w = Some (text "alpha beta gamma alpha") ->
  heap_oracle wx = [] ->
  fopen exclusion wx = Some (text "BETA") ->
  let t0 := mkHashTable (replicate HASH_TABLE_SIZE []) HASH_TABLE_SIZE in
  let t1 := fst (process_file source t0 MODE_ADD w) in
  let t2 := fst (process_file exclusion t1 MODE_REMOVE wx) in
  enumerate t1 = [text "beta"; text "gamma"; text "alpha"] /\
  enumerate t2 = [text "gamma"; text "alpha"].
Proof.
  intros Hw Hsrc Hwx Hexcl t0 t1 t2.
  pose proof (chronicled_process_file HASH_TABLE_SIZE source t0 MODE_ADD w []
                _ HASH_TABLE_SIZE_pos Hsrc (chronicled_empty _)) as H1.
  rewrite chronicle_no_failure in H1 by done.
  assert (fold_left
            (fun c op => chronicle_step op (mkWorld [] [] [] []) c)
            (map (pair MODE_ADD) (tokens (text "alpha beta gamma alpha"))) []
          = [text "alpha"; text "beta"; text "gamma"]) as Hc1
      by (vm_compute; reflexivity).
  rewrite Hc1 in H1. fold t1 in H1.
  pose proof (chronicled_process_file HASH_TABLE_SIZE exclusion t1
                MODE_REMOVE wx _ _ HASH_TABLE_SIZE_pos Hexcl H1) as H2.
  rewrite chronicle_no_failure in H2 by done.
  assert (fold_left
            (fun c op => chronicle_step op (mkWorld [] [] [] []) c)
            (map (pair MODE_REMOVE) (tokens (text "BETA")))
            [text "alpha"; text "beta"; text "gamma"]
          = [text "alpha"; text "gamma"]) as Hc2
      by (vm_compute; reflexivity).
  rewrite Hc2 in H2. fold t2 in H2.
  split.
  - rewrite (chronicled_enumerate_sparse _ _ _
               [Z.to_nat 2465; Z.to_nat 10984; Z.to_nat 11307] H1);
      vm_compute; reflexivity.
  - rewrite (chronicled_enumerate_sparse _ _ _
               [Z.to_nat 10984; Z.to_nat 11307] H2);
      vm_compute; reflexivity.
Qed.

(** C1.  With every allocation granted, a source file holding
    "alpha beta gamma alpha" and an exclusion file holding "BETA": the
    add pass leaves the three words beta, gamma, alpha in the table
    (alpha once), the remove pass takes beta out, and the table then
    enumerates exactly gamma and alpha (buckets 10984 and 11307);
    [main] prints these two words after its progress lines and ends
    with status 0. *)
Theorem vocabulary_set_difference (prog source exclusion : word)
  (w : World) :
  heap_oracle w = [] ->
  fopen source w = Some (text "alpha beta gamma alpha") ->
  fopen exclusion w = Some (text "BETA") ->
  let t0 := mkHashTable (replicate HASH_TABLE_SIZE []) HASH_TABLE_SIZE in
  let st1 := process_file source t0 MODE_ADD w in
  let st2 := process_file exclusion (fst st1) MODE_REMOVE (snd st1) in
  let r := main [prog; source; exclusion] w in
  enumerate (fst st1) = [text "beta"; text "gamma"; text "alpha"] /\
  enumerate (fst st2) = [text "gamma"; text "alpha"] /\
  fst r = 0 /\
  stderr (snd r) = stderr w /\
  stdout (snd r) =
    stdout w
    ++ (text "Processing source file: " ++ c_str source ++ [newline])
    ++ (text "Processing exclusion file: " ++ c_str exclusion ++ [newline])
    ++ ([newline] ++ text "--- Final Vocabulary ---" ++ [newline])
    ++ (text "gamma" ++ [newline]) ++ (text "alpha" ++ [newline]).
Proof.
  intros Hw Hsrc Hexcl t0 st1 st2 r.
  assert (snd st1 = w) as Hst1 by (by eapply process_file_no_failure).
  split; [|split].
  - by apply (set_difference_passes source exclusion w w).
  - subst st2. rewrite Hst1.
    by apply (set_difference_passes source exclusion w w).
  - subst r.
    rewrite (main_two_files _ _ _ _ _ _
               (create_hash_table_no_failure _ w Hw)). cbv zeta.
    fold t0. unfold exclusion_pass.
    set (w2 := printf _ w).
    assert (snd (process_file source t0 MODE_ADD w2) = w2) as Hs3
        by (by eapply process_file_no_failure).
    rewrite Hs3. set (w3 := printf _ w2).
    assert (snd (process_file exclusion
                   (fst (process_file source t0 MODE_ADD w2)) MODE_REMOVE w3)
            = w3) as Hs4 by (by eapply process_file_no_failure).
    rewrite Hs4.
    set (t4 := fst (process_file exclusion _ MODE_REMOVE w3)).
    cbn [fst snd].
    destruct (print_table_streams t4
                (printf ([newline] ++ text "--- Final Vocabulary ---"
                         ++ [newline]) w3)) as [Ho He].
    rewrite Ho, He. split; [done|]. split; [done|].
    subst t4.
    destruct (set_difference_passes source exclusion w2 w3) as [_ Hen];
      try done.
    cbv zeta in Hen. fold t0 in Hen. rewrite Hen.
    subst w3 w2. cbn [stdout printf map concat line].
    rewrite <- !app_assoc. reflexivity.
Qed.

Lemma vocabulary_set_difference_witness :
  let source := text "source.txt" in
  let exclusion := text "exclusion.txt" in
  let w0 := mkWorld [] [(source, text "alpha beta gamma alpha");
                        (exclusion, text "BETA")] [] [] in
  let t0 := mkHashTable (replicate HASH_TABLE_SIZE []) HASH_TABLE_SIZE in
  let st1 := process_file source t0 MODE_ADD w0 in
  heap_oracle w0 = [] /\
  fopen source w0 = Some (text "alpha beta gamma alpha") /\
  fopen exclusion w0 = Some (text "BETA") /\
  enumerate (fst (process_file exclusion (fst st1) MODE_REMOVE (snd st1)))
  = [text "gamma"; text "alpha"].
Proof.
  intros source exclusion w0 t0 st1.
  split; [reflexivity|]. split; [reflexivity|]. split; [reflexivity|].
  pose proof (vocabulary_set_difference (text "vocab") source exclusion w0
                eq_refl eq_refl eq_refl) as H.
  cbv zeta in H. exact (proj1 (proj2 H)).
Defined.

(** ** Truncation *)

Lemma c_str_no_NUL (s : word) :
  Forall (fun ch => ch <> NUL) s -> c_str s = s.
Proof.
  induction 1 as [|ch s Hch _ IH]; [done|]. simpl.
  destruct (Ascii.eqb_spec ch NUL); [done|]. by rewrite IH.
Qed.

Lemma normalize_take (r : list ascii) :
  normalize r = map lower (take 63 r).
Proof. unfold normalize. symmetry. apply fmap_take. Qed.

Lemma normalize_long_length (r : list ascii) :
  (63 <= length r)%nat -> length (normalize r) = 63%nat.
Proof.
  intros H. unfold normalize. rewrite length_take, length_map.
  change max_token_length with 63%nat. lia.
Qed.

Lemma tokens_long_run (r : list ascii) :
  Forall (fun ch => is_letter ch = true) r ->
  (63 <= length r)%nat ->
  tokens r = [normalize r].
Proof.
  intros Hr Hlen. unfold tokens. rewrite alpha_runs_letters by done.
  destruct r as [|ch r]; [simpl in Hlen; lia|].
  cbn [nonempty map List.filter]. unfold long_enough.
  rewrite normalize_long_length by done. reflexivity.
Qed.

Lemma tokens_two_long_runs (r1 r2 : list ascii) (d : ascii) :
  Forall (fun ch => is_letter ch = true) r1 ->
  Forall (fun ch => is_letter ch = true) r2 ->
  (63 <= length r1)%nat -> (63 <= length r2)%nat ->
  is_letter d = false ->
  tokens (r1 ++ d :: r2) = [normalize r1; normalize r2].
Proof.
  intros H1 H2 Hl1 Hl2 Hd.
  pose proof (tokens_long_run r2 H2 Hl2) as Ht2.
  unfold tokens in *. rewrite alpha_runs_delimiter by done.
  destruct r1 as [|ch r1]; [simpl in Hl1; lia|].
  cbn [nonempty app map List.filter]. rewrite Ht2.
  unfold long_enough. rewrite normalize_long_length by done. reflexivity.
Qed.

(** C10.  Runs of letters of length 63 or more whose first 63 letters
    agree up to case give one and the same token, the lowered first 63
    letters.  Hence a source holding two such runs leaves a single
    entry in a table that started empty, and an exclusion text holding a
    third such run removes it. *)
Theorem truncation_collapse (r1 r2 r3 : list ascii) (n : nat)
  (w w' : World) :
  Forall (fun ch => is_letter ch = true) r1 ->
  Forall (fun ch => is_letter ch = true) r2 ->
  Forall (fun ch => is_letter ch = true) r3 ->
  (63 <= length r1)%nat -> (63 <= length r2)%nat -> (63 <= length r3)%nat ->
  map lower (take 63 r1) = map lower (take 63 r2) ->
  map lower (take 63 r1) = map lower (take 63 r3) ->
  (0 < n)%nat ->
  allocation_succeeds w = true ->
  let tok := map lower (take 63 r1) in
  let t0 := mkHashTable (replicate n []) n in
  let st1 := scan (dispatch MODE_ADD) (r1 ++ " "%char :: r2) [] (t0, w) in
  let st2 := scan (dispatch MODE_REMOVE) r3 [] (fst st1, w') in
  tokens r1 = [tok] /\ tokens r2 = [tok] /\
  enumerate (fst st1) = [tok] /\
  enumerate (fst st2) = [].
Proof.
  intros H1 H2 H3 Hl1 Hl2 Hl3 E12 E13 Hn Halloc tok t0 st1 st2.
  assert (tok = normalize r1) as Htok by (symmetry; apply normalize_take).
  clearbody tok. rewrite <- !normalize_take in E12, E13.
  assert (tokens r1 = [tok]) as Ht1
      by (rewrite Htok; by apply tokens_long_run).
  assert (tokens r2 = [tok]) as Ht2
      by (rewrite Htok, E12; by apply tokens_long_run).
  assert (tokens r3 = [tok]) as Ht3
      by (rewrite Htok, E13; by apply tokens_long_run).
  split; [done|]. split; [done|].
  assert (c_str tok = tok) as Hcs
      by (rewrite Htok; apply c_str_no_NUL; by apply normalize_no_NUL).
  assert (matches tok tok = true) as Hm by (by apply matches_true).
  assert (chronicled n (fst st1) [tok]) as Hc1.
  { subst st1. rewrite scan_tokens, emit_all_dispatch.
    rewrite tokens_two_long_runs by done. rewrite <- E12, <- Htok.
    pose proof (chronicled_run n [(MODE_ADD, tok); (MODE_ADD, tok)] (t0, w) []
                  Hn (chronicled_empty n)) as H.
    cbn [chronicle] in H. unfold chronicle_step in H. simpl in H.
    rewrite Halloc, Hcs in H. simpl in H. rewrite Hm in H. exact H. }
  assert (chronicled n (fst st2) []) as Hc2.
  { subst st2. rewrite scan_tokens, emit_all_dispatch, Ht3.
    pose proof (chronicled_run n [(MODE_REMOVE, tok)] (fst st1, w') [tok]
                  Hn Hc1) as H.
    cbn [chronicle] in H. unfold chronicle_step in H. simpl in H.
    rewrite Hm in H. exact H. }
  split.
  - rewrite (chronicled_enumerate_sparse n _ _ [home n tok] Hc1).
    + simpl. unfold of_bucket. simpl. by rewrite Nat.eqb_refl.
    + reflexivity.
    + simpl. rewrite andb_true_r. apply Nat.ltb_lt. by apply home_lt.
    + simpl. by rewrite Nat.eqb_refl.
  - by rewrite (chronicled_enumerate_sparse n _ _ [] Hc2).
Qed.

Lemma truncation_collapse_witness :
  let r1 := replicate 63 "a"%char ++ text "x" in
  let r2 := replicate 63 "A"%char ++ text "yz" in
  let r3 := replicate 63 "a"%char in
  let w := mkWorld [] [] [] [] in
  let t0 := mkHashTable (replicate 4 []) 4 in
  let st1 := scan (dispatch MODE_ADD) (r1 ++ " "%char :: r2) [] (t0, w) in
  let st2 := scan (dispatch MODE_REMOVE) r3 [] (fst st1, w) in
  tokens r1 = [r3] /\ tokens r2 = [r3] /\
  enumerate (fst st1) = [r3] /\ enumerate (fst st2) = [].
Proof.
  intros r1 r2 r3 w t0 st1 st2.
  apply (truncation_collapse r1 r2 r3 4 w w);
    try (by vm_compute); try (apply Forall_forall; intros ch Hch;
      apply list_elem_of_In in Hch; vm_compute in Hch;
      repeat (destruct Hch as [<-|Hch]; [reflexivity|]); done);
    try (apply Nat.leb_le; reflexivity).
Defined.

Lemma set_invariant_reachable_witness :
  let w := mkWorld [true; true; true; true; false] [] [] [] in
  let t0 := mkHashTable (replicate 4 []) 4 in
  let ops := [(MODE_ADD, text "Apple"); (MODE_ADD, text "apple");
              (MODE_REMOVE, text "APPLE"); (MODE_ADD, text "bank");
              (MODE_ADD, text "word")] in
  let t := fst (run ops (t0, mkWorld [true; true; false] [] [] [])) in
  create_hash_table 4 w = (Some t0, mkWorld [true; true; false] [] [] []) /\
  enumerate t = [text "word"] /\
  no_case_duplicates t /\ in_home_bucket t /\ once_per_chain t.
Proof.
  intros w t0 ops t. split; [reflexivity|]. split; [reflexivity|].
  apply (set_invariant_reachable 4 w (mkWorld [true; true; false] [] [] [])
           t0 ops); [lia|reflexivity].
Defined.

(** * Further properties of the code *)

(** ** The hash function *)





(** X2.  In a table with [size > 0] buckets the index computed at lines
    76 and 111 is below [size], so the bucket it names exists: neither
    [insert_word] nor [remove_word] reads or writes outside the bucket
    array. *)
Theorem bucket_index_in_bounds (t : HashTable) (wd : word) :
  table_shape t ->
  (bucket_index t wd < size t)%nat /\
  is_Some (buckets t !! bucket_index t wd).
Proof.
  intros Hshape. pose proof (bucket_index_lt t wd Hshape) as Hlt.
  split; [destruct Hshape as [_ <-]; exact Hlt|].
  by apply lookup_lt_is_Some.
Qed.

Lemma bucket_index_in_bounds_witness :
  let t := mkHashTable (replicate 4 []) 4 in
  (bucket_index t (text "word") < 4)%nat.
Proof.
  intros t.
  apply (bucket_index_in_bounds t (text "word")). split; simpl; lia.
Defined.

(** ** Creating the table *)

Lemma enumerate_empty (n : nat) :
  enumerate (mkHashTable (replicate n []) n) = [].
Proof.
  rewrite enumerate_concat by apply length_replicate. simpl.
  induction n as [|n IH]; [done|]. simpl. exact IH.
Qed.

Lemma create_hash_table_fst (n : nat) (w : World) :
  fst (create_hash_table n w) =
    if allocation_succeeds w then Some (mkHashTable (replicate n []) n)
    else None.
Proof.
  unfold create_hash_table, allocation_succeeds, malloc.
  destruct (heap_oracle w) as [|[] [|[] o]] eqn:E; simpl;
    rewrite ?E; reflexivity.
Qed.

Lemma create_hash_table_streams (n : nat) (w : World) :
  stdout (snd (create_hash_table n w)) = stdout w /\
  stderr (snd (create_hash_table n w)) = stderr w /\
  files (snd (create_hash_table n w)) = files w.
Proof.
  unfold create_hash_table, malloc.
  destruct (heap_oracle w) as [|[] [|[] o]] eqn:E; simpl;
    rewrite ?E; done.
Qed.

(** X3.  [create_hash_table] makes two allocation requests at most.
    When both are granted it returns a table of the requested size
    whose buckets are all empty; when either is refused it returns NULL.
    In both cases it writes nothing to either stream. *)
Theorem create_hash_table_result (n : nat) (w : World) :
  let r := create_hash_table n w in
  fst r =
    (if allocation_succeeds w then Some (mkHashTable (replicate n []) n)
     else None) /\
  (forall t, fst r = Some t ->
             size t = n /\ length (buckets t) = n /\ enumerate t = []) /\
  stdout (snd r) = stdout w /\ stderr (snd r) = stderr w /\
  files (snd r) = files w.
Proof.
  intros r. subst r. split; [apply create_hash_table_fst|]. split.
  - intros t Ht. rewrite create_hash_table_fst in Ht.
    destruct (allocation_succeeds w); [|done]. injection Ht as <-.
    split; [done|]. split; [apply length_replicate|apply enumerate_empty].
  - apply create_hash_table_streams.
Qed.

Lemma create_hash_table_result_witness :
  let r := create_hash_table 4 (mkWorld [true; true] [] [] []) in
  exists t, fst r = Some t /\ enumerate t = [].
Proof.
  intros r.
  destruct (create_hash_table_result 4 (mkWorld [true; true] [] [] []))
    as (Hr & Ht & _).
  eexists. split; [exact Hr|]. by apply (Ht _ Hr).
Defined.

(** ** Membership after insert *)

Lemma enumerate_insert_bucket (t : HashTable) (i : nat)
  (chain : list word) :
  table_shape t ->
  (i < size t)%nat ->
  enumerate t =
    concat (take i (buckets t)) ++ (buckets t !!! i)
    ++ concat (drop (S i) (buckets t)) /\
  enumerate (mkHashTable (<[i := chain]> (buckets t)) (size t)) =
    concat (take i (buckets t)) ++ chain ++ concat (drop (S i) (buckets t)).
Proof.
  intros [_ Hlen] Hi. split.
  - rewrite enumerate_concat by done.
    rewrite <- (take_drop_middle (buckets t) i (buckets t !!! i)) at 1
      by (apply list_lookup_lookup_total_lt; lia).
    by rewrite concat_app.
  - rewrite enumerate_concat by (simpl; by rewrite length_insert).
    simpl. rewrite insert_take_drop by lia. by rewrite concat_app.
Qed.

(** X4.  [insert_word] never loses a word and adds at most its own
    copy: every entry enumerated before is enumerated after, and any
    new entry is the copy of the word passed in.  When the word is
    absent and memory is granted the copy is stored as given (its
    spelling is kept) and the table has one entry more; an insert that
    is not given up leaves an entry equal to the word under
    [strcasecmp]. *)
Theorem insert_word_membership (t : HashTable) (wd : word) (w : World) :
  table_shape t ->
  let t1 := fst (insert_word t wd w) in
  (forall x, x ∈ enumerate t -> x ∈ enumerate t1) /\
  (forall x, x ∈ enumerate t1 -> x ∈ enumerate t \/ x = c_str wd) /\
  (chain_find (buckets t !!! bucket_index t wd) wd = false ->
   allocation_succeeds w = true ->
   c_str wd ∈ enumerate t1 /\
   length (enumerate t1) = S (length (enumerate t))) /\
  (insert_abandoned t wd w = false ->
   exists x, x ∈ enumerate t1 /\ strcasecmp x wd = 0).
Proof.
  intros Hshape t1.
  pose proof (bucket_index_lt t wd Hshape) as Hlt.
  rewrite (proj2 Hshape) in Hlt.
  pose proof (enumerate_insert_bucket t (bucket_index t wd)
                (c_str wd :: buckets t !!! bucket_index t wd) Hshape Hlt)
    as [He He1].
  assert (t1 = if chain_find (buckets t !!! bucket_index t wd) wd then t
               else if allocation_succeeds w
                    then mkHashTable
                           (<[bucket_index t wd :=
                                c_str wd :: buckets t !!! bucket_index t wd]>
                              (buckets t)) (size t)
                    else t) as Ht1 by apply insert_word_table.
  split; [|split; [|split]].
  - intros x Hx. rewrite Ht1.
    destruct (chain_find _ wd); [done|].
    destruct (allocation_succeeds w); [|done].
    rewrite He1. rewrite He in Hx.
    rewrite !elem_of_app in *. rewrite elem_of_cons. tauto.
  - intros x Hx. rewrite Ht1 in Hx.
    destruct (chain_find _ wd); [by left|].
    destruct (allocation_succeeds w); [|by left].
    rewrite He1 in Hx. rewrite He.
    rewrite !elem_of_app in *. rewrite elem_of_cons in Hx. tauto.
  - intros Hfind Halloc. rewrite Ht1, Hfind, Halloc, He1, He. split.
    + rewrite !elem_of_app, elem_of_cons. tauto.
    + rewrite !length_app. simpl. lia.
  - intros Hdone.
    pose proof (insert_word_present t wd wd w Hshape) as Hp.
    assert (strcasecmp wd wd = 0) as Hrefl
        by (by apply strcasecmp_zero_iff).
    specialize (Hp Hrefl Hdone). cbv zeta in Hp. fold t1 in Hp.
    rewrite chain_find_existsb in Hp.
    apply existsb_exists in Hp as (x & Hx & Hm).
    exists x. split.
    + apply elem_of_enumerate; [by apply insert_word_shape|].
      exists (bucket_index t1 wd), (buckets t1 !!! bucket_index t1 wd).
      split; [|by apply list_elem_of_In].
      apply list_lookup_lookup_total_lt, bucket_index_lt.
      by apply insert_word_shape.
    + unfold matches in Hm. by apply Z.eqb_eq in Hm.
Qed.

Lemma insert_word_membership_witness :
  let t := mkHashTable [[text "a"]; [text "bb"]] 2 in
  let t1 := fst (insert_word t (text "Cat") (mkWorld [] [] [] [])) in
  enumerate t1 = [text "a"; text "Cat"; text "bb"] /\
  forall x, x ∈ enumerate t -> x ∈ enumerate t1.
Proof.
  intros t t1. split; [reflexivity|].
  apply (insert_word_membership t (text "Cat") (mkWorld [] [] [] [])).
  split; simpl; lia.
Defined.

(** ** Insert and remove together *)

(** X5.  Inserting a word that is not in the table and then removing
    it, under any spelling, gives back the table exactly as it was:
    the new node is the head of its chain and is the one unlinked.
    This holds whether or not the insert obtained its memory. *)
Theorem insert_then_remove_restores (t : HashTable) (wd wd' : word)
  (w : World) :
  table_shape t ->
  strcasecmp wd wd' = 0 ->
  chain_find (buckets t !!! bucket_index t wd) wd = false ->
  remove_word (fst (insert_word t wd w)) wd' = t.
Proof.
  intros Hshape Hcmp Hfind.
  pose proof (bucket_index_lt t wd Hshape) as Hlt.
  pose proof (bucket_index_strcasecmp t wd wd' Hcmp) as Hidx.
  rewrite insert_word_table. simpl. rewrite Hfind.
  destruct (allocation_succeeds w).
  - unfold remove_word, bucket_index. simpl.
    fold (bucket_index t wd'). rewrite <- Hidx.
    rewrite list_lookup_total_insert_eq by done. simpl.
    assert (strcasecmp (c_str wd) wd' = 0) as ->.
    { apply strcasecmp_zero_iff. rewrite fold_case_c_str.
      by apply strcasecmp_zero_iff. }
    simpl. rewrite list_insert_insert_eq.
    rewrite list_insert_id by (by apply list_lookup_lookup_total_lt).
    by destruct t.
  - apply remove_word_not_found. rewrite <- Hidx.
    by rewrite <- (chain_find_congruence _ wd wd').
Qed.

Lemma insert_then_remove_restores_witness :
  let t := mkHashTable [[text "a"]; [text "bb"]] 2 in
  remove_word (fst (insert_word t (text "Cat") (mkWorld [] [] [] [])))
    (text "CAT") = t.
Proof.
  intros t.
  apply (insert_then_remove_restores t (text "Cat") (text "CAT"));
    [split; simpl; lia|reflexivity|reflexivity].
Defined.

(** X6.  In a table that satisfies the set invariant a second remove of
    the same word, under any spelling, changes nothing: the first one
    has taken out the only matching entry. *)
Theorem remove_word_twice (t : HashTable) (wd wd' : word) :
  set_invariant t ->
  strcasecmp wd wd' = 0 ->
  remove_word (remove_word t wd) wd' = remove_word t wd.
Proof.
  intros Hinv Hcmp. pose proof Hinv as [Hshape _].
  pose proof (remove_word_shape t wd Hshape) as Hshape'.
  apply remove_word_not_found. apply chain_find_false. intros x Hx Hfold.
  apply (remove_word_absent t wd Hinv x).
  - apply elem_of_enumerate; [done|].
    eexists _, _. split; [|exact Hx].
    apply list_lookup_lookup_total_lt. by apply bucket_index_lt.
  - apply strcasecmp_zero_iff. rewrite Hfold. symmetry.
    by apply strcasecmp_zero_iff.
Qed.

Lemma remove_word_twice_witness :
  let t := mkHashTable [[text "a"]; [text "bb"]] 2 in
  remove_word (remove_word t (text "BB")) (text "bb")
  = mkHashTable [[text "a"]; []] 2.
Proof.
  intros t.
  rewrite (remove_word_twice t (text "BB") (text "bb")); [reflexivity| |].
  - split; [split; simpl; lia|]. intros i chain Hi.
    destruct i as [|[|i]]; simpl in Hi; [| |done]; injection Hi as <-;
      (split; [repeat constructor|simpl]);
      apply NoDup_singleton.
  - reflexivity.
Defined.

(** ** The size of the table *)

(** X7.  No operation resizes the table: after any sequence of inserts
    and removes the bucket count and the length of the bucket array are
    what they were, so a table created with [n > 0] buckets keeps them
    for its lifetime. *)
Theorem run_keeps_size (ops : list (ProcessMode * word))
  (st : HashTable * World) :
  size (fst (run ops st)) = size (fst st) /\
  length (buckets (fst (run ops st))) = length (buckets (fst st)).
Proof.
  revert st. induction ops as [|[mode wd] ops IH]; intros st; [done|].
  simpl. destruct (IH (dispatch mode wd st)) as [-> ->].
  destruct mode; simpl.
  - apply insert_word_size.
  - split; [done|]. apply length_insert.
Qed.

(** ** Printing *)

(** X8.  [print_table] writes the entries to standard output one per
    line, bucket after bucket and each chain from its head, and touches
    nothing else: the error stream, the files and the heap are as
    before.  An empty table prints nothing. *)
Theorem print_table_output (t : HashTable) (w : World) :
  print_table t w =
    mkWorld (heap_oracle w) (files w)
            (stdout w ++ concat (map line (enumerate t))) (stderr w).
Proof.
  unfold print_table, enumerate. generalize (seq 0 (size t)). intros l.
  assert (forall chain w,
             print_chain chain w =
               mkWorld (heap_oracle w) (files w)
                       (stdout w ++ concat (map line chain)) (stderr w))
    as Hchain.
  { induction chain as [|node next IH]; intros w'; simpl.
    - rewrite app_nil_r. by destruct w'.
    - rewrite IH. simpl. unfold line. by rewrite <- app_assoc. }
  revert w. induction l as [|i l IH]; intros w; simpl.
  - rewrite app_nil_r. by destruct w.
  - rewrite IH, Hchain. simpl.
    by rewrite map_app, concat_app, <- app_assoc.
Qed.

(** ** What [process_file] does to the environment *)

Lemma insert_word_streams (t : HashTable) (wd : word) (w : World) :
  stdout (snd (insert_word t wd w)) = stdout w /\
  files (snd (insert_word t wd w)) = files w /\
  exists report, stderr (snd (insert_word t wd w)) = stderr w ++ report.
Proof.
  unfold insert_word, strdup, malloc, perror, fprintf_stderr.
  destruct (chain_find _ wd).
  { split; [done|]. split; [done|]. exists []. by rewrite app_nil_r. }
  destruct (heap_oracle w) as [|[] [|[] o]] eqn:E; simpl; rewrite ?E; simpl;
    (split; [done|]); (split; [done|]);
    try (exists []; by rewrite app_nil_r); by eexists.
Qed.

Lemma run_streams (ops : list (ProcessMode * word))
  (st : HashTable * World) :
  stdout (snd (run ops st)) = stdout (snd st) /\
  files (snd (run ops st)) = files (snd st) /\
  exists report, stderr (snd (run ops st)) = stderr (snd st) ++ report.
Proof.
  revert st. induction ops as [|[mode wd] ops IH]; intros st.
  - split; [done|]. split; [done|]. exists []. by rewrite app_nil_r.
  - simpl. destruct (IH (dispatch mode wd st)) as (-> & -> & e & ->).
    destruct mode; simpl.
    + destruct (insert_word_streams (fst st) wd (snd st))
        as (-> & -> & e' & ->).
      split; [done|]. split; [done|]. exists (e' ++ e).
      by rewrite app_assoc.
    + split; [done|]. split; [done|]. by exists e.
Qed.

Lemma run_remove_world (toks : list word) (st : HashTable * World) :
  snd (run (map (pair MODE_REMOVE) toks) st) = snd st.
Proof.
  revert st. induction toks as [|tok toks IH]; intros st; [done|].
  simpl. by rewrite IH.
Qed.

Lemma process_file_streams (filename : word) (t : HashTable)
  (mode : ProcessMode) (w : World) :
  stdout (snd (process_file filename t mode w)) = stdout w /\
  files (snd (process_file filename t mode w)) = files w /\
  exists report,
    stderr (snd (process_file filename t mode w)) = stderr w ++ report.
Proof.
  destruct (fopen filename w) as [contents|] eqn:Hopen.
  - rewrite (process_file_run _ _ _ _ _ Hopen).
    apply (run_streams (map (pair mode) (tokens contents)) (t, w)).
  - unfold process_file. rewrite Hopen. simpl.
    split; [done|]. split; [done|]. by eexists.
Qed.

(** X9.  [process_file] never writes to standard output and never
    changes the files; the error stream only grows.  A file that cannot
    be opened leaves the table and the heap as they were and puts one
    message naming the file on the error stream; a remove pass over a
    file that opens leaves the whole environment untouched. *)
Theorem process_file_environment (filename : word) (t : HashTable)
  (mode : ProcessMode) (w : World) :
  let r := process_file filename t mode w in
  stdout (snd r) = stdout w /\
  files (snd r) = files w /\
  (exists report, stderr (snd r) = stderr w ++ report) /\
  (fopen filename w = None ->
   fst r = t /\ heap_oracle (snd r) = heap_oracle w /\
   stderr (snd r) =
     stderr w ++ text "Error: Could not open file '" ++ c_str filename
     ++ text "'." ++ [newline]) /\
  (mode = MODE_REMOVE -> fopen filename w <> None -> snd r = w).
Proof.
  intros r. subst r.
  destruct (process_file_streams filename t mode w) as (Ho & Hf & He).
  split; [done|]. split; [done|]. split; [done|]. split.
  - intros Hopen. unfold process_file. rewrite Hopen. done.
  - intros -> Hopen.
    destruct (fopen filename w) as [contents|] eqn:E; [|done].
    rewrite (process_file_run _ _ _ _ _ E). apply run_remove_world.
Qed.

Lemma process_file_environment_witness :
  let w := mkWorld [false] [] [] [] in
  let t := mkHashTable (replicate 4 []) 4 in
  let r := process_file (text "missing.txt") t MODE_ADD w in
  fst r = t /\ heap_oracle (snd r) = [false].
Proof.
  intros w t r.
  destruct (process_file_environment (text "missing.txt") t MODE_ADD w)
    as (_ & _ & _ & H & _).
  destruct (H eq_refl) as (H1 & H2 & _). split; [exact H1|exact H2].
Defined.

(** ** The exit status of [main] *)

(** X10.  [main] ends with status 1 in two cases only, fewer than two
    file arguments or a table that could not be allocated, and then it
    prints nothing on standard output and a message on the error
    stream; in every other case it ends with status 0, whatever happens
    to the files and to later allocations. *)
Theorem main_exit_code (argv : list word) (w : World) :
  let failed :=
    (Z.of_nat (length argv) <? 3) || negb (allocation_succeeds w) in
  fst (main argv w) = (if failed then 1 else 0) /\
  (failed = true ->
   stdout (snd (main argv w)) = stdout w /\
   exists report,
     report <> [] /\ stderr (snd (main argv w)) = stderr w ++ report).
Proof.
  intros failed. subst failed. unfold main.
  destruct (Z.of_nat (length argv) <? 3).
  { simpl. split; [done|]. intros _. split; [done|]. eexists. split; [|done].
    discriminate. }
  pose proof (create_hash_table_fst HASH_TABLE_SIZE w) as Hr.
  destruct (create_hash_table_streams HASH_TABLE_SIZE w) as (Ho & He & _).
  destruct (create_hash_table HASH_TABLE_SIZE w) as [[t|] w1];
    cbn [fst snd] in Hr, Ho, He.
  - destruct (allocation_succeeds w); [|discriminate Hr].
    cbn [negb orb fst]. split; [reflexivity|]. discriminate.
  - destruct (allocation_succeeds w); [discriminate Hr|].
    cbn [negb orb fst snd fprintf_stderr stdout stderr].
    split; [reflexivity|]. intros _. rewrite Ho, He. split; [reflexivity|].
    eexists. split; [|reflexivity]. discriminate.
Qed.

Lemma main_exit_code_witness :
  fst (main [text "vocab"; text "only.txt"] (mkWorld [] [] [] [])) = 1 /\
  stdout (snd (main [text "vocab"; text "only.txt"] (mkWorld [] [] [] [])))
  = [].
Proof.
  destruct (main_exit_code [text "vocab"; text "only.txt"]
              (mkWorld [] [] [] [])) as [H1 H2].
  split; [exact H1|]. apply H2. reflexivity.
Defined.

(** ** The words the scanner hands over *)

Lemma scan_record (input : list ascii) (sent : list word) :
  scan (fun tok sent => sent ++ [tok]) input [] sent = sent ++ tokens input.
Proof.
  rewrite scan_tokens. unfold emit_all. revert sent.
  induction (tokens input) as [|tok toks IH]; intros sent; simpl.
  - by rewrite app_nil_r.
  - by rewrite IH, <- app_assoc.
Qed.

Lemma fields_letters (s : list ascii) :
  Forall (Forall (fun ch => is_letter ch = true)) (fields s).
Proof.
  induction s as [|ch s IH]; simpl; [by repeat constructor|].
  destruct (is_letter ch) eqn:Hch; [|by constructor].
  destruct (fields s) as [|f fs]; [by repeat constructor|].
  apply Forall_cons in IH as [Hf Hfs]. constructor; [|done].
  by constructor.
Qed.

Lemma lower_letter_islower (ch : ascii) :
  is_letter ch = true -> islower (uchar_to_int (lower ch)) = true.
Proof. destruct ch as [[] [] [] [] [] [] [] []]; done. Qed.

Lemma token_shape (s : list ascii) (tok : word) :
  tok ∈ tokens s ->
  MIN_WORD_LENGTH <= Z.of_nat (length tok) < MAX_WORD_LENGTH /\
  lowercase_word tok.
Proof.
  unfold tokens, alpha_runs. intros Htok.
  apply list_elem_of_In, filter_In in Htok as [Htok Hlong].
  apply in_map_iff in Htok as (r & <- & Hr).
  apply filter_In in Hr as [Hr _].
  pose proof (fields_letters s) as Hall. rewrite Forall_forall in Hall.
  apply list_elem_of_In, Hall in Hr.
  split; [split|].
  - unfold long_enough in Hlong. by apply Z.leb_le in Hlong.
  - unfold normalize. rewrite length_take, length_map.
    change max_token_length with 63%nat. unfold MAX_WORD_LENGTH. lia.
  - unfold lowercase_word, normalize. apply Forall_take, Forall_fmap.
    eapply Forall_impl; [exact Hr|]. intros ch Hch.
    by apply lower_letter_islower.
Qed.

Lemma lowercase_no_NUL (x : word) :
  lowercase_word x -> Forall (fun ch => ch <> NUL) x.
Proof.
  intros H. eapply Forall_impl; [exact H|]. intros ch Hch ->. done.
Qed.

(** X11.  Every word [process_file] passes to [insert_word] or
    [remove_word] is made of lowercase ASCII letters only and is at
    least 4 and at most 63 bytes long, so with its terminator it fits
    the 64-byte [word_buffer]. *)
Theorem scanned_words_fit_buffer (input : list ascii) :
  Forall (fun tok =>
            MIN_WORD_LENGTH <= strlen tok < MAX_WORD_LENGTH /\
            lowercase_word tok)
         (scan (fun tok sent => sent ++ [tok]) input [] []).
Proof.
  rewrite scan_record. simpl. apply Forall_forall. intros tok Htok.
  destruct (token_shape input tok Htok) as [Hlen Hlow].
  split; [|done]. rewrite strlen_no_NUL; [done|].
  by apply lowercase_no_NUL.
Qed.

(** ** Scanning piece by piece *)

Lemma fields_delimiter (a : list ascii) (d : ascii) (b : list ascii) :
  is_letter d = false ->
  fields (a ++ d :: b) = fields a ++ fields b.
Proof.
  intros Hd. induction a as [|ch a IH]; simpl; [by rewrite Hd|].
  rewrite IH. destruct (is_letter ch); [|done].
  destruct (fields a) as [|f fs] eqn:E; [|done].
  by apply fields_not_nil in E.
Qed.

Lemma tokens_delimiter (a : list ascii) (d : ascii) (b : list ascii) :
  is_letter d = false ->
  tokens (a ++ d :: b) = tokens a ++ tokens b.
Proof.
  intros Hd. unfold tokens, alpha_runs.
  by rewrite fields_delimiter, !List.filter_app, map_app, List.filter_app.
Qed.

(** X12.  A byte that is not a letter separates the input cleanly:
    scanning [a], the delimiter and then [b] hands over the words of
    [a] followed by the words of [b], as if the two parts had been
    scanned one after the other.  No word straddles a delimiter and
    nothing of [a] is left pending. *)
Theorem scan_delimiter {S : Type} (emit : word -> S -> S)
  (a : list ascii) (d : ascii) (b : list ascii) (st : S) :
  isalpha (uchar_to_int d) = false ->
  scan emit (a ++ d :: b) [] st = scan emit b [] (scan emit a [] st).
Proof.
  intros Hd. rewrite isalpha_is_letter in Hd.
  rewrite !scan_tokens, tokens_delimiter by done.
  unfold emit_all. apply fold_left_app.
Qed.

Lemma scan_delimiter_witness :
  scan (fun tok sent => sent ++ [tok]) (text "alpha,beta") [] [] =
  scan (fun tok sent => sent ++ [tok]) (text "beta") []
    (scan (fun tok sent => sent ++ [tok]) (text "alpha") [] []).
Proof.
  apply (scan_delimiter _ (text "alpha") ","%char (text "beta")).
  reflexivity.
Defined.

(** ** The case of the input *)

Lemma is_letter_lower (ch : ascii) : is_letter (lower ch) = is_letter ch.
Proof. destruct ch as [[] [] [] [] [] [] [] []]; reflexivity. Qed.

Lemma lower_lower (ch : ascii) : lower (lower ch) = lower ch.
Proof. destruct ch as [[] [] [] [] [] [] [] []]; reflexivity. Qed.

Lemma fields_map_lower (s : list ascii) :
  fields (map lower s) = map (map lower) (fields s).
Proof.
  induction s as [|ch s IH]; [done|]. simpl.
  rewrite is_letter_lower, IH. destruct (is_letter ch); [|done].
  by destruct (fields s).
Qed.

Lemma tokens_map_lower (s : list ascii) : tokens (map lower s) = tokens s.
Proof.
  unfold tokens, alpha_runs. rewrite fields_map_lower.
  rewrite (filter_map_swap nonempty), map_map.
  rewrite (filter_ext (fun r => nonempty (map lower r)) nonempty)
    by (by intros [|ch r]).
  rewrite (map_ext (fun r => normalize (map lower r)) normalize); [done|].
  intros r. unfold normalize. f_equal.
  rewrite map_map. apply map_ext. intros ch. apply lower_lower.
Qed.

(** X13.  The scanner does not see the case of its input: lowering
    every byte of a text with [tolower] before scanning gives the same
    words, so "BETA", "Beta" and "beta" in a file all stand for the
    word "beta". *)
Theorem scan_ignores_case {S : Type} (emit : word -> S -> S)
  (input : list ascii) (st : S) :
  scan emit
       (map (fun ch => int_to_char (tolower (uchar_to_int ch))) input) [] st
  = scan emit input [] st.
Proof.
  rewrite (map_ext _ lower tolower_lower).
  by rewrite !scan_tokens, tokens_map_lower.
Qed.

(** ** The vocabulary [main] prints *)

Lemma lowercase_fold_case (x : word) :
  lowercase_word x -> fold_case x = map uchar_to_int x.
Proof.
  intros H. unfold fold_case.
  rewrite c_str_no_NUL by (by apply lowercase_no_NUL).
  induction H as [|ch x Hch _ IH]; [done|]. simpl. rewrite IH. f_equal.
  unfold islower in Hch. apply andb_true_iff in Hch as [H1 H2].
  apply Z.leb_le in H1. unfold tolower, isupper.
  destruct (Z.leb_spec (uchar_to_int ch) 90); [lia|].
  by rewrite andb_false_r.
Qed.

(** On lowercase words [strcasecmp] is plain equality. *)
Lemma lowercase_fold_case_inj (x y : word) :
  lowercase_word x -> lowercase_word y ->
  fold_case x = fold_case y -> x = y.
Proof.
  intros Hx Hy. rewrite !lowercase_fold_case by done. clear Hx Hy.
  revert y. induction x as [|a x IH]; intros [|b y]; simpl; try done.
  intros [= Hab Hxy]. f_equal; [by apply uchar_to_int_inj|by apply IH].
Qed.

Lemma existsb_matches_lowercase (s : word) (c : list word) :
  lowercase_word s -> Forall lowercase_word c ->
  existsb (matches s) c = true <-> s ∈ c.
Proof.
  intros Hs Hc. rewrite existsb_exists. rewrite Forall_forall in Hc. split.
  - intros (x & Hx & Hm). apply list_elem_of_In in Hx.
    apply matches_true in Hm.
    by rewrite <- (lowercase_fold_case_inj x s (Hc x Hx) Hs Hm).
  - intros Hin. exists s. split; [by apply list_elem_of_In|].
    by apply matches_true.
Qed.

Lemma chronicle_step_add (s : word) (c : list word) :
  lowercase_word s ->
  chronicle_step (MODE_ADD, s) (mkWorld [] [] [] []) c =
    if existsb (matches s) c then c else c ++ [s].
Proof.
  intros Hs. unfold chronicle_step. simpl.
  by rewrite c_str_no_NUL by (by apply lowercase_no_NUL).
Qed.

Lemma chronicle_pass_add (toks c : list word) :
  Forall lowercase_word toks -> Forall lowercase_word c ->
  Forall lowercase_word
    (fold_left (fun c op => chronicle_step op (mkWorld [] [] [] []) c)
               (map (pair MODE_ADD) toks) c) /\
  forall x,
    x ∈ fold_left (fun c op => chronicle_step op (mkWorld [] [] [] []) c)
          (map (pair MODE_ADD) toks) c <->
    x ∈ c \/ x ∈ toks.
Proof.
  intros Htoks. revert c.
  induction Htoks as [|s toks Hs _ IH]; intros c Hc; cbn [map fold_left].
  - split; [done|]. intros x. rewrite elem_of_nil. tauto.
  - rewrite chronicle_step_add by done.
    pose proof (existsb_matches_lowercase s c Hs Hc) as Hex.
    destruct (existsb (matches s) c).
    + destruct (IH c Hc) as [Hlow Hmem]. split; [done|].
      intros x. rewrite Hmem, elem_of_cons.
      assert (s ∈ c) by (by apply Hex). split; [tauto|].
      intros [?|[->|?]]; tauto.
    + assert (Forall lowercase_word (c ++ [s])) as Hc'
          by (apply Forall_app; split; [done|by constructor]).
      destruct (IH _ Hc') as [Hlow Hmem]. split; [done|].
      intros x. rewrite Hmem, elem_of_app, !elem_of_cons, elem_of_nil.
      tauto.
Qed.

Lemma chronicle_pass_remove (toks c : list word) :
  Forall lowercase_word toks -> Forall lowercase_word c ->
  Forall lowercase_word
    (fold_left (fun c op => chronicle_step op (mkWorld [] [] [] []) c)
               (map (pair MODE_REMOVE) toks) c) /\
  forall x,
    x ∈ fold_left (fun c op => chronicle_step op (mkWorld [] [] [] []) c)
          (map (pair MODE_REMOVE) toks) c <->
    x ∈ c /\ x ∉ toks.
Proof.
  intros Htoks. revert c.
  induction Htoks as [|e toks He _ IH]; intros c Hc; cbn [map fold_left].
  - split; [done|]. intros x. rewrite elem_of_nil. tauto.
  - change (chronicle_step (MODE_REMOVE, e) (mkWorld [] [] [] []) c)
      with (List.filter (fun x => negb (matches e x)) c).
    set (c1 := List.filter (fun x => negb (matches e x)) c).
    assert (forall x, x ∈ c1 <-> x ∈ c /\ x <> e) as Hc1.
    { intros x. unfold c1. rewrite list_elem_of_In, filter_In.
      rewrite <- list_elem_of_In, negb_true_iff, matches_false.
      split; intros [Hx Hne]; (split; [done|]).
      - intros ->. done.
      - intros Hfold. apply Hne.
        rewrite Forall_forall in Hc.
        by apply lowercase_fold_case_inj; [apply Hc| |]. }
    assert (Forall lowercase_word c1) as Hlow1.
    { apply Forall_forall. intros x Hx. apply Hc1 in Hx as [Hx _].
      rewrite Forall_forall in Hc. by apply Hc. }
    destruct (IH c1 Hlow1) as [Hlow Hmem]. split; [done|].
    intros x. rewrite Hmem, Hc1, not_elem_of_cons. tauto.
Qed.

Lemma file_tokens_lowercase (w : World) (filename : word) :
  Forall lowercase_word (file_tokens w filename).
Proof.
  unfold file_tokens. destruct (fopen filename w) as [contents|]; [|done].
  apply Forall_forall. intros tok Htok.
  by destruct (token_shape contents tok Htok).
Qed.

Lemma file_tokens_files (w w' : World) (filename : word) :
  files w' = files w -> file_tokens w' filename = file_tokens w filename.
Proof. intros H. unfold file_tokens, fopen. by rewrite H. Qed.

(** An add pass of [process_file] when no allocation is refused. *)
Lemma process_file_pass (n : nat) (filename : word) (t : HashTable)
  (mode : ProcessMode) (w : World) (c : list word) :
  (0 < n)%nat ->
  heap_oracle w = [] ->
  chronicled n t c ->
  chronicled n (fst (process_file filename t mode w))
    (fold_left (fun c op => chronicle_step op (mkWorld [] [] [] []) c)
               (map (pair mode) (file_tokens w filename)) c).
Proof.
  intros Hn Hw Hc. unfold file_tokens.
  destruct (fopen filename w) as [contents|] eqn:Hopen.
  - rewrite <- (chronicle_no_failure _ t w c Hw).
    by apply chronicled_process_file.
  - unfold process_file. rewrite Hopen. simpl. done.
Qed.

(** Removes do not look at the environment. *)
Lemma chronicle_remove_pass (toks : list word) (st : HashTable * World)
  (c : list word) :
  chronicle (map (pair MODE_REMOVE) toks) st c =
    fold_left (fun c op => chronicle_step op (mkWorld [] [] [] []) c)
              (map (pair MODE_REMOVE) toks) c.
Proof.
  revert st c. induction toks as [|e toks IH]; intros st c; [done|].
  cbn [map chronicle fold_left]. rewrite IH. reflexivity.
Qed.

Lemma process_file_remove_pass (n : nat) (filename : word)
  (t : HashTable) (w : World) (c : list word) :
  (0 < n)%nat ->
  chronicled n t c ->
  chronicled n (fst (process_file filename t MODE_REMOVE w))
    (fold_left (fun c op => chronicle_step op (mkWorld [] [] [] []) c)
               (map (pair MODE_REMOVE) (file_tokens w filename)) c).
Proof.
  intros Hn Hc. unfold file_tokens.
  destruct (fopen filename w) as [contents|] eqn:Hopen.
  - rewrite <- (chronicle_remove_pass _ (t, w) c).
    by apply chronicled_process_file.
  - unfold process_file. rewrite Hopen. simpl. done.
Qed.

(** The loop of lines 245-248, for any outcome of the allocations. *)
Lemma exclusion_passes (n : nat) (w : World) (excls : list word)
  (st : HashTable * World) (c : list word) :
  (0 < n)%nat ->
  files (snd st) = files w ->
  chronicled n (fst st) c ->
  Forall lowercase_word c ->
  let st' := fold_left exclusion_pass excls st in
  stdout (snd st') =
    stdout (snd st) ++ concat (map exclusion_progress excls) /\
  exists c',
    chronicled n (fst st') c' /\
    forall x, x ∈ c' <->
              x ∈ c /\ forall e, e ∈ excls -> x ∉ file_tokens w e.
Proof.
  intros Hn. revert st c.
  induction excls as [|e excls IH]; intros st c Hf Hc Hlow; simpl.
  - split; [by rewrite app_nil_r|]. exists c. split; [done|].
    intros x. split; [|tauto]. intros Hx. split; [done|].
    intros e He. by apply elem_of_nil in He.
  - set (w1 := printf (text "Processing exclusion file: " ++ c_str e
                       ++ [newline]) (snd st)).
    assert (files w1 = files w) as Hf1 by done.
    unfold exclusion_pass at 2. fold w1.
    pose proof (process_file_remove_pass n e (fst st) w1 c Hn Hc) as Hc2.
    destruct (process_file_streams e (fst st) MODE_REMOVE w1)
      as (Ho2 & Hf2 & _).
    rewrite (file_tokens_files w w1 e Hf1) in Hc2.
    destruct (chronicle_pass_remove (file_tokens w e) c
                (file_tokens_lowercase w e) Hlow) as [Hlow2 Hmem2].
    destruct (IH _ _ (eq_trans Hf2 Hf1) Hc2 Hlow2)
      as (Hout & c' & Hc' & Hmem').
    split.
    + rewrite Hout, Ho2. unfold w1. simpl.
      unfold exclusion_progress at 2. by rewrite <- app_assoc.
    + exists c'. split; [done|]. intros x. rewrite Hmem', Hmem2. split.
      * intros [[Hx Hne] Hrest]. split; [done|]. intros f Hin.
        apply elem_of_cons in Hin as [->|Hin]; [done|by apply Hrest].
      * intros [Hx Hall]. split; [split; [done|]|].
        -- apply Hall. by left.
        -- intros f Hin. apply Hall. by right.
Qed.

Lemma flat_map_bind {A B : Type} (f : A -> list B) (l : list A) :
  flat_map f l = l ≫= f.
Proof. induction l as [|x l IH]; [done|]. simpl. by rewrite IH. Qed.

Lemma chronicled_members (n : nat) (t : HashTable) (c : list word) :
  (0 < n)%nat ->
  chronicled n t c ->
  NoDup (enumerate t) /\ forall x, x ∈ enumerate t <-> x ∈ c.
Proof.
  intros Hn Hc. rewrite (chronicled_enumerate n t c Hc).
  destruct Hc as (_ & _ & Hnd & _). apply NoDup_fmap_1 in Hnd.
  assert (forall i x, x ∈ rev (of_bucket n i c) <-> x ∈ c /\ home n x = i)
    as Hin.
  { intros i x. rewrite !list_elem_of_In, <- in_rev. unfold of_bucket.
    by rewrite filter_In, Nat.eqb_eq. }
  split.
  - rewrite flat_map_bind. apply NoDup_bind.
    + intros i1 i2 x _ _ H1 H2. apply Hin in H1, H2. lia.
    + intros i _. apply NoDup_ListNoDup, List.NoDup_rev, List.NoDup_filter.
      by apply NoDup_ListNoDup.
    + apply NoDup_ListNoDup, seq_NoDup.
  - intros x. rewrite list_elem_of_In, in_flat_map. split.
    + intros (i & _ & Hx). apply list_elem_of_In, Hin in Hx. tauto.
    + intros Hx. exists (home n x). split.
      * apply in_seq. pose proof (home_lt n x Hn). lia.
      * apply list_elem_of_In, Hin. done.
Qed.

(** X14.  The program computes a set difference.  With at least one
    exclusion file and no allocation refused, [main] ends with status 0
    and prints, after one progress line per file and the heading, a
    list of words without repetition in which a word occurs exactly
    when it is a token of the source file and of no exclusion file; a
    file that cannot be opened counts as empty. *)
Theorem main_prints_set_difference (prog source e1 : word)
  (excls : list word) (w : World) :
  heap_oracle w = [] ->
  let r := main (prog :: source :: e1 :: excls) w in
  fst r = 0 /\
  exists vocabulary : list word,
    stdout (snd r) =
      stdout w
      ++ (text "Processing source file: " ++ c_str source ++ [newline])
      ++ concat (map exclusion_progress (e1 :: excls))
      ++ ([newline] ++ text "--- Final Vocabulary ---" ++ [newline])
      ++ concat (map line vocabulary) /\
    NoDup vocabulary /\
    forall x,
      x ∈ vocabulary <->
      x ∈ file_tokens w source /\
      forall e, e ∈ e1 :: excls -> x ∉ file_tokens w e.
Proof.
  intros Hw r.
  set (t0 := mkHashTable (replicate HASH_TABLE_SIZE []) HASH_TABLE_SIZE).
  set (w2 := printf (text "Processing source file: " ++ c_str source
                     ++ [newline]) w).
  set (st3 := process_file source t0 MODE_ADD w2).
  set (st4 := fold_left exclusion_pass (e1 :: excls) st3).
  assert (r = (0, print_table (fst st4)
                    (printf ([newline] ++ text "--- Final Vocabulary ---"
                             ++ [newline]) (snd st4)))) as ->.
  { subst r. unfold main.
    destruct (Z.ltb_spec (Z.of_nat (length (prog :: source :: e1 :: excls)))
                3) as [Hlt|_]; [simpl length in Hlt; lia|].
    by rewrite (create_hash_table_no_failure _ w Hw). }
  split; [done|].
  assert (heap_oracle w2 = []) as Hw2 by done.
  pose proof (process_file_pass HASH_TABLE_SIZE source t0 MODE_ADD w2 []
                HASH_TABLE_SIZE_pos Hw2 (chronicled_empty _)) as Hc3.
  fold st3 in Hc3.
  destruct (process_file_streams source t0 MODE_ADD w2)
    as (Ho3 & Hf3 & _). fold st3 in Ho3, Hf3.
  rewrite (file_tokens_files w w2 source eq_refl) in Hc3.
  destruct (chronicle_pass_add (file_tokens w source) []
              (file_tokens_lowercase w source) (Forall_nil_2 _))
    as [Hlow3 Hmem3].
  destruct (exclusion_passes HASH_TABLE_SIZE w (e1 :: excls) st3 _
              HASH_TABLE_SIZE_pos Hf3 Hc3 Hlow3)
    as (Ho4 & c4 & Hc4 & Hmem4).
  fold st4 in Ho4, Hc4.
  destruct (chronicled_members _ _ _ HASH_TABLE_SIZE_pos Hc4)
    as [Hnd Hmem].
  exists (enumerate (fst st4)). split; [|split; [done|]].
  - cbn [snd].
    destruct (print_table_streams (fst st4)
                (printf ([newline] ++ text "--- Final Vocabulary ---"
                         ++ [newline]) (snd st4))) as [-> _].
    cbn [stdout printf]. rewrite Ho4, Ho3. unfold w2. cbn [stdout printf].
    by rewrite <- !app_assoc.
  - intros x. rewrite Hmem, Hmem4, Hmem3. rewrite elem_of_nil. tauto.
Qed.

Lemma main_prints_set_difference_witness :
  let w := mkWorld [] [(text "s.txt", text "Quick brown quick fox")] [] [] in
  exists vocabulary,
    NoDup vocabulary /\
    forall x, x ∈ vocabulary <->
              x ∈ [text "quick"; text "brown"; text "quick"] /\
              forall e, e ∈ [text "missing.txt"] ->
                        x ∉ file_tokens w e.
Proof.
  intros w.
  destruct (main_prints_set_difference (text "vocab") (text "s.txt")
              (text "missing.txt") [] w eq_refl)
    as (_ & vocabulary & _ & Hnd & Hmem).
  exists vocabulary. split; [exact Hnd|exact Hmem].
Defined.

(** ** The vocabulary when memory runs short *)



